(** * Signal: a shallow embedding of [src/index.js]

    The class [Signal] extends the signable message of the package
    [@satellite-earth/dev-torrent].  The embedding keeps the shape of the
    JavaScript: property bags are finite maps from strings to values, a
    method that can throw returns a [result], a method that mutates [this]
    returns the new state of the signal, and the inherited methods
    ([super.sign], [super.verify], [super.verifySync], [super.compare],
    [authorAlias]) are parameters of the section that uses them.

    Numbers.  The numeric parameters of a signal are block heights and
    Unix timestamps.  A JavaScript number is modelled as [NaN] or an exact
    integer; fractions and infinities do not occur in the modelled
    fragment, and integers are taken exactly (doubles are exact up to
    2^53, and rounding never changes the sign of a difference). *)

From Stdlib Require Import ZArith Lia Ascii String.
From stdpp Require Import base numbers strings gmap fin_maps list pretty.

Local Open Scope string_scope.

(** ** Values *)

Inductive number : Type :=
  | NaN
  | Int (z : Z).

Inductive value : Type :=
  | VUndef
  | VNull
  | VBool (b : bool)
  | VNum (n : number)
  | VStr (s : string).

#[global] Instance number_eq_dec : EqDecision number.
Proof. solve_decision. Defined.

#[global] Instance value_eq_dec : EqDecision value.
Proof. solve_decision. Defined.

(** A property bag ([_signed_], [_params_], the constructor's
    [signalParams], a block-info record).  A key can be present with the
    value [undefined]; reading an absent key gives [undefined] too. *)
Abbreviation obj := (gmap string value).

Definition get (o : obj) (key : string) : value :=
  default VUndef (o !! key).

(** [Object.keys].  The order is the one of the map's enumeration; no
    method of the class depends on it. *)
Definition Object_keys (o : obj) : list string := (map_to_list o).*1.

(** [typeof v] *)
Definition typeof (v : value) : string :=
  match v with
  | VUndef => "undefined"
  | VNull => "object"
  | VBool _ => "boolean"
  | VNum _ => "number"
  | VStr _ => "string"
  end.

(** [v] in a boolean position: [if (v)], [!v]. *)
Definition truthy (v : value) : bool :=
  match v with
  | VUndef | VNull => false
  | VBool b => b
  | VNum NaN => false
  | VNum (Int z) => negb (z =? 0)%Z
  | VStr s => negb (String.eqb s "")
  end.

(** [a === b] *)
Definition strict_eq (a b : value) : bool :=
  match a, b with
  | VUndef, VUndef => true
  | VNull, VNull => true
  | VBool x, VBool y => Bool.eqb x y
  | VNum (Int x), VNum (Int y) => (x =? y)%Z
  | VStr x, VStr y => String.eqb x y
  | _, _ => false
  end.

(** The conversion a template literal applies to [${v}].  An integer is
    written with all its decimal digits, which is what the program
    writes for the safe integers (see [exact_text]); from 1e21 on the
    program writes an exponent, and a property that depends on the text of
    a number is stated for safe integers only. *)
Definition number_to_string (n : number) : string :=
  match n with
  | NaN => "NaN"
  | Int z => pretty z
  end.

Definition to_string (v : value) : string :=
  match v with
  | VUndef => "undefined"
  | VNull => "null"
  | VBool true => "true"
  | VBool false => "false"
  | VNum n => number_to_string n
  | VStr s => s
  end.

(** ** Errors and results *)

(** Every [throw] of the class, named as the error taxonomy names them,
    and the two run-time errors of the language that the code can raise. *)
Inductive error : Type :=
  | MissingRequiredParam (param : string)
      (* Missing required signal param '...' *)
  | MissingSender
      (* Cannot verify if signal 'sender' is undefined *)
  | SenderMismatch
      (* Signal param 'sender' does not match verified author alias *)
  | MissingCollaborator
      (* Must provide Earth API instance *)
  | MissingAnchor
      (* Cannot locate if signal 'block' is undefined *)
  | NotLocated
      (* Cannot compare signals without blockNumber or timestamp param *)
  | ReferenceError (name : string)
      (* ... is not defined *)
  | TypeError (what : string)
      (* ... is not a function *)
  | Rejected (why : string).
      (* thrown by a collaborator *)

Inductive result (A : Type) : Type :=
  | Ok (a : A)
  | Throw (e : error).

Arguments Ok {A} a.
Arguments Throw {A} e.

#[global] Instance result_ret : MRet result := @Ok.

#[global] Instance result_bind : MBind result := λ A B k r,
  match r with
  | Ok a => k a
  | Throw e => Throw e
  end.

(** [for (let x of xs) { body }], where the body updates the loop's state
    or throws. *)
Fixpoint for_of {A S : Type} (xs : list A) (body : A → S → result S)
    (s : S) : result S :=
  match xs with
  | [] => Ok s
  | x :: xs' => s' ← body x s; for_of xs' body s'
  end.

(** ** Strings *)

(** [s.split(' > ')]: the segments of [s] between the occurrences of the
    three-character separator, found from left to right, an occurrence
    starting only after the previous one has ended.  The result is never
    empty; the head of the recursive result is the segment being read. *)
Definition push_char (c : ascii) (segs : list string) : list string :=
  match segs with
  | [] => [String c ""]
  | seg :: segs' => String c seg :: segs'
  end.

Definition is_sep (c0 c1 c2 : ascii) : bool :=
  Ascii.eqb c0 " " && Ascii.eqb c1 ">" && Ascii.eqb c2 " ".

Fixpoint split_sep (s : string) : list string :=
  match s with
  | "" => [""]
  | String c0 rest =>
      match rest with
      | String c1 (String c2 rest') =>
          if is_sep c0 c1 c2 then "" :: split_sep rest'
          else push_char c0 (split_sep rest)
      | _ => push_char c0 (split_sep rest)
      end
  end.

(** [sp[i]]: [undefined] past the end of the array. *)
Definition at_index (sp : list string) (i : nat) : value :=
  match sp !! i with
  | Some seg => VStr seg
  | None => VUndef
  end.

(** [parseInt(v)] with no radix.  The argument is converted to a string;
    leading white space is skipped, then an optional sign, then the prefix
    [0x] or [0X] selects radix 16; the longest run of digits of the radix
    is the result, and [NaN] if there is none.  Two limits of the model:
    the value of the digits is kept exactly, where the program rounds it
    to a double beyond 2^53; and the white space skipped is the ASCII
    one (space, tab, line feed, vertical tab, form feed, carriage
    return), not the other Unicode white space the program also skips. *)
Definition is_space (c : ascii) : bool :=
  let n := nat_of_ascii c in
  (n =? 32)%nat || ((9 <=? n)%nat && (n <=? 13)%nat).

Definition digit_of (radix : Z) (c : ascii) : option Z :=
  let n := Z.of_nat (nat_of_ascii c) in
  let d :=
    if (48 <=? n)%Z && (n <=? 57)%Z then Some (n - 48)%Z
    else if (97 <=? n)%Z && (n <=? 122)%Z then Some (n - 87)%Z
    else if (65 <=? n)%Z && (n <=? 90)%Z then Some (n - 55)%Z
    else None in
  match d with
  | Some k => if (k <? radix)%Z then Some k else None
  | None => None
  end.

Fixpoint skip_spaces (s : string) : string :=
  match s with
  | String c rest => if is_space c then skip_spaces rest else s
  | "" => ""
  end.

Fixpoint digits (radix : Z) (acc : option Z) (s : string) : option Z :=
  match s with
  | "" => acc
  | String c rest =>
      match digit_of radix c with
      | Some d => digits radix (Some (default 0%Z acc * radix + d)%Z) rest
      | None => acc
      end
  end.

Definition parse_magnitude (s : string) : option Z :=
  match s with
  | String "0" (String "x" rest) | String "0" (String "X" rest) =>
      digits 16 None rest
  | _ => digits 10 None s
  end.

Definition parseInt_string (s : string) : number :=
  let s := skip_spaces s in
  let '(sign, s) :=
    match s with
    | String "-" rest => ((-1)%Z, rest)
    | String "+" rest => (1%Z, rest)
    | _ => (1%Z, s)
    end in
  match parse_magnitude s with
  | Some m => Int (sign * m)
  | None => NaN
  end.

Definition parseInt (v : value) : number :=
  parseInt_string (to_string v).

(** ** The signal *)

(** The state of a [Signal] object: the two property bags it inherits
    from the signable message and the four claim fields the constructor
    assigns. *)
Record Signal : Type := mkSignal {
  _signed_ : obj;
  _params_ : obj;
  sender : value;
  action : value;
  epoch : value;
  block : value
}.

#[global] Instance Signal_eq_dec : EqDecision Signal.
Proof. solve_decision. Defined.

Definition with_signed (signed : obj) (this : Signal) : Signal :=
  mkSignal signed (_params_ this)
    (sender this) (action this) (epoch this) (block this).

Definition with_params (params : obj) (this : Signal) : Signal :=
  mkSignal (_signed_ this) params
    (sender this) (action this) (epoch this) (block this).

Definition with_claim (sd ac ep bl : value) (this : Signal) : Signal :=
  mkSignal (_signed_ this) (_params_ this) sd ac ep bl.

(** The wire shape the constructor receives. *)
Record Payload : Type := mkPayload {
  payload_signed : obj;
  payload_params : obj
}.

(** Modelled from the spec: [super(payload)], the constructor of the
    wrapped signable message, which lives in [@satellite-earth/dev-torrent]
    and not in this source tree.  It installs the payload's [_signed_] and
    [_params_] mappings (wire shape [{ _signed_, _params_ }]); the four
    claim fields are not assigned by it. *)
Definition super_new (payload : Payload) : Signal :=
  mkSignal (payload_signed payload) (payload_params payload)
    VUndef VUndef VUndef VUndef.

(** Modelled from the spec: [addParams(partial)] of the wrapped message:
    merges the new key/value pairs into the parameters, overwriting
    existing keys of the same name; the signed fields are not affected. *)
Definition addParams (partial : obj) (this : Signal) : Signal :=
  with_params (partial ∪ _params_ this) this.

(** *** Getters *)

Definition consensus (this : Signal) : value := get (_signed_ this) "@".

Definition world (this : Signal) : value := get (_params_ this) "world".

(** [blockNumber] and [timestamp] return [undefined] ([None]) or the
    number [parseInt] makes of the stored parameter. *)
Definition blockNumber (this : Signal) : option number :=
  if String.eqb (typeof (get (_params_ this) "blockNumber")) "undefined"
  then None
  else Some (parseInt (get (_params_ this) "blockNumber")).

Definition timestamp (this : Signal) : option number :=
  if String.eqb (typeof (get (_params_ this) "timestamp")) "undefined"
  then None
  else Some (parseInt (get (_params_ this) "timestamp")).

Definition dropped (this : Signal) : option number :=
  if String.eqb (typeof (get (_params_ this) "dropped")) "undefined"
  then None
  else Some (parseInt (get (_params_ this) "dropped")).

(** [typeof i !== 'undefined'] for the result of such a getter. *)
Definition defined (i : option number) : bool :=
  match i with
  | Some _ => true
  | None => false
  end.

Definition located (this : Signal) : bool :=
  defined (timestamp this) || defined (blockNumber this).

Definition standardParams (this : Signal) : obj :=
  <["sig" := get (_params_ this) "sig"]>
  (<["alias" := get (_params_ this) "alias"]>
  (<["world" := get (_params_ this) "world"]>
  (<["timestamp" := get (_params_ this) "timestamp"]>
  (<["blockNumber" := get (_params_ this) "blockNumber"]> ∅)))).

(** The five reserved keys. *)
Definition standard (key : string) : Prop :=
  key ∈ ["sig"; "alias"; "world"; "timestamp"; "blockNumber"].

(** [xs.indexOf(key)]; [None] stands for -1. *)
Definition indexOf (xs : list string) (key : string) : option nat :=
  fst <$> list_find (λ x, x = key) xs.

Definition customParams (this : Signal) : obj :=
  let standardKeys := Object_keys (standardParams this) in
  foldl (λ customParams key,
           if decide (indexOf standardKeys key = None)
           then <[key := get (_params_ this) key]> customParams
           else customParams)
        ∅ (Object_keys (_params_ this)).

(** The getter [payload]: only the standard parameters are serialized. *)
Definition payload (this : Signal) : Payload :=
  mkPayload (_signed_ this) (standardParams this).

(** *** Construction *)

Definition compose (sd ac ep bl : value) : string :=
  to_string sd ++ " > " ++ to_string ac ++ " > " ++
  to_string ep ++ " > " ++ to_string bl.

(** The body of the first loop tests [typeof param], the name the loop
    variable holds, and not [signalParams[param]]. *)
Definition check_required (param : string) (this : Signal) : result Signal :=
  if String.eqb (typeof (VStr param)) "undefined"
  then Throw (MissingRequiredParam param)
  else Ok this.

Definition set_coord (signalParams : obj) (coord : string) (this : Signal)
    : result Signal :=
  if negb (String.eqb (typeof (get signalParams coord)) "undefined")
  then Ok (with_params (<[coord := get signalParams coord]> (_params_ this))
             this)
  else Ok this.

(** [new Signal(payload, signalParams)]; [signalParams] is [None] when the
    second argument is left out. *)
Definition constructor (payload : Payload) (signalParams : option obj)
    : result Signal :=
  let this := super_new payload in
  match signalParams with
  | Some sp =>
      this ← for_of ["sender"; "action"; "epoch"; "block"]
               check_required this;
      let this :=
        with_claim (get sp "sender") (get sp "action")
                   (get sp "epoch") (get sp "block") this in
      this ← for_of ["blockNumber"; "timestamp"; "world"]
               (set_coord sp) this;
      Ok (with_signed
            (<["@" := VStr (compose (sender this) (action this)
                                    (epoch this) (block this))]>
               (_signed_ this))
            this)
  | None =>
      if truthy (consensus this) then
        match consensus this with
        | VStr c =>
            let sp := split_sep c in
            Ok (with_claim (at_index sp 0) (at_index sp 1)
                           (at_index sp 2) (at_index sp 3) this)
        | _ => Throw (TypeError "this.consensus.split")
        end
      else Ok this
  end.

(** *** Parameter store *)

Definition clearLocation (this : Signal) : Signal :=
  let keep :=
    foldl (λ keep key,
             if decide (key ≠ "timestamp" ∧ key ≠ "blockNumber")
             then <[key := get (_params_ this) key]> keep
             else keep)
          ∅ (Object_keys (_params_ this)) in
  with_params keep this.

(** What an identifier of a method body can be bound to. *)
Inductive binding : Type :=
  | BArray (xs : list string)
  | BObject (o : obj)
  | BString (s : string)
  | BOther.

Definition scope := list (string * binding).

(** The bindings of the module: the two it declares and those every
    CommonJS module receives.  The host's global object has no property
    [standardParams]. *)
Definition module_scope : scope :=
  [("Torrent", BOther); ("Signal", BOther); ("module", BOther);
   ("exports", BOther); ("require", BOther);
   ("__filename", BOther); ("__dirname", BOther)].

Definition resolve (locals : scope) (name : string) : result binding :=
  match list_find (λ b, b.1 = name) (locals ++ module_scope) with
  | Some (_, (_, b)) => Ok b
  | None => Throw (ReferenceError name)
  end.

(** [b.indexOf(key) !== -1] *)
Definition has_index (b : binding) (key : string) : result bool :=
  match b with
  | BArray xs => Ok (bool_decide (indexOf xs key ≠ None))
  | BString s => Ok (bool_decide (String.index 0 key s ≠ None))
  | BObject _ | BOther => Throw (TypeError "indexOf")
  end.

(** [clearCustomParams].  The loop body reads the identifier
    [standardParams], which is looked up in the scope of the method: the
    locals [keep], [standardKeys] and [key], then the module. *)
Definition clearCustomParams (this : Signal) : result Signal :=
  let standardKeys := Object_keys (standardParams this) in
  keep ← for_of (Object_keys (_params_ this))
           (λ key keep,
              let locals :=
                [("key", BString key); ("standardKeys", BArray standardKeys);
                 ("keep", BObject keep)] in
              b ← resolve locals "standardParams";
              std ← has_index b key;
              if (std : bool) then Ok (<[key := get (_params_ this) key]> keep)
              else Ok keep)
           (∅ : obj);
  Ok (with_params keep this).

(** *** Location *)

(** The Earth API instance, as far as the class uses it:
    [earth.web3.eth.getBlock(hash)] and [earth.clock.readHash(hash,
    confirm)].  A lookup answers with a block-info record, with nothing
    ([None]: no data), or throws. *)
Record Earth : Type := mkEarth {
  getBlock : value → result (option obj);
  readHash : value → value → result (option obj)
}.

(** What a [locate] call returns: the object [params] it has built, or
    [this]. *)
Inductive located_as : Type :=
  | ReturnParams (params : obj)
  | ReturnThis.

(** [locate(earth)].  The result carries the state of the signal after
    the call. *)
Definition locate (earth : option Earth) (this : Signal)
    : result (located_as * Signal) :=
  match earth with
  | None => Throw MissingCollaborator
  | Some earth =>
      if String.eqb (typeof (block this)) "undefined" then Throw MissingAnchor
      else
        info ← getBlock earth (block this);
        match info with
        | Some info =>
            let params : obj :=
              <["blockNumber" := get info "blockNumber"]>
              (<["timestamp" := get info "timestamp"]> ∅) in
            Ok (ReturnParams params, addParams params this)
        | None => Ok (ReturnThis, clearLocation this)
        end
  end.

(** [locateSync(earth, confirm)] *)
Definition locateSync (earth : option Earth) (confirm : value)
    (this : Signal) : result (located_as * Signal) :=
  match earth with
  | None => Throw MissingCollaborator
  | Some earth =>
      if String.eqb (typeof (block this)) "undefined" then Throw MissingAnchor
      else
        info ← readHash earth (block this) confirm;
        match info with
        | Some info =>
            let params : obj :=
              <["blockNumber" := get info "number"]>
              (<["timestamp" := get info "timestamp"]> ∅) in
            Ok (ReturnParams params, addParams params this)
        | None => Ok (ReturnThis, clearLocation this)
        end
  end.

(** *** Comparison, signing, verification *)

(** [i0 === i1] and [i0 - i1] on what the numeric getters return;
    [undefined] converts to [NaN], and [NaN] is equal to nothing.  The
    difference of two integers is exact here; the program rounds it to a
    double, which keeps its sign and, when it is a safe integer, its
    value. *)
Definition same (i0 i1 : option number) : bool :=
  match i0, i1 with
  | None, None => true
  | Some (Int x), Some (Int y) => (x =? y)%Z
  | _, _ => false
  end.

Definition minus (i0 i1 : option number) : number :=
  match i0, i1 with
  | Some (Int x), Some (Int y) => Int (x - y)
  | _, _ => NaN
  end.

(** One entry of the extra EIP-712 domain fields handed to the wrapped
    message. *)
Record DomainField : Type := mkDomainField {
  field_name : string;
  field_type : string;
  field_value : value
}.

Section Wrapped.

(** The methods inherited from the signable message.  Each may throw;
    [sign] and the two [verify] may change the state of the signal (the
    signature, the recovered alias). *)
Context {Signed : Type}.
Variable super_sign :
  option Earth → list DomainField → Signal → result (Signed * Signal).
Variable super_verify :
  option Earth → list DomainField → Signal → result Signal.
Variable super_verifySync :
  option Earth → value → list DomainField → Signal → result Signal.
Variable authorAlias : Signal → value.
Variable super_compare : Signal → Signal → result number.

Definition sign (earth : option Earth) (this : Signal)
    : result (Signed * Signal) :=
  super_sign earth [mkDomainField "name" "string" (world this)] this.

Definition check_sender (this : Signal) : result Signal :=
  if negb (strict_eq (sender this) (authorAlias this))
  then Throw SenderMismatch
  else Ok this.

Definition verify (earth : option Earth) (this : Signal) : result Signal :=
  if String.eqb (typeof (sender this)) "undefined" then Throw MissingSender
  else
    this ← super_verify earth
             [mkDomainField "name" "string" (world this)] this;
    check_sender this.

Definition verifySync (earth : option Earth) (blockNumber : value)
    (this : Signal) : result Signal :=
  if String.eqb (typeof (sender this)) "undefined" then Throw MissingSender
  else
    this ← super_verifySync earth blockNumber
             [mkDomainField "name" "string" (world this)] this;
    check_sender this.

(** [this.compare(that)] *)
Definition compare (this that : Signal) : result number :=
  if negb (located this && located that) then Throw NotLocated
  else
    let i0 := blockNumber this in
    let i1 := blockNumber that in
    let '(i0, i1) :=
      if negb (defined i0) || negb (defined i1)
      then (timestamp this, timestamp that)
      else (i0, i1) in
    if same i0 i1 then super_compare this that else Ok (minus i0 i1).

End Wrapped.

(** ** Order induced by [compare] *)

(** A sort that uses [compare] puts [a] before [b] when the result is a
    negative number. *)
Definition before (cmp : Signal → Signal → result number) (a b : Signal)
    : Prop :=
  ∃ z, cmp a b = Ok (Int z) ∧ (z < 0)%Z.

(** A comparator is a strict total order on a set of signals when it is
    antisymmetric (swapping the arguments flips the sign), transitive, and
    reports no tie between two distinct members. *)
Definition strict_total_order_on (members : Signal → Prop)
    (cmp : Signal → Signal → result number) : Prop :=
  (∀ a b z, members a → members b → cmp a b = Ok (Int z) →
     ∃ z', cmp b a = Ok (Int z') ∧ Z.sgn z' = (- Z.sgn z)%Z) ∧
  (∀ a b c, members a → members b → members c →
     before cmp a b → before cmp b c → before cmp a c) ∧
  (∀ a b, members a → members b → a ≠ b →
     ∃ z, cmp a b = Ok (Int z) ∧ z ≠ 0%Z).

(** The two kinds of set on which [compare] reads one key throughout:
    every member has an integer [blockNumber], or no member has a
    [blockNumber] and every member has an integer [timestamp]. *)
Definition all_numbered (members : Signal → Prop) : Prop :=
  ∀ s, members s → ∃ k, blockNumber s = Some (Int k).

Definition all_timed (members : Signal → Prop) : Prop :=
  ∀ s, members s → blockNumber s = None ∧ ∃ k, timestamp s = Some (Int k).

(** ** Consensus strings: where the separator occurs *)

(** [s] contains the separator [" > "]. *)
Fixpoint contains_sep (s : string) : bool :=
  match s with
  | "" => false
  | String c0 rest =>
      match rest with
      | String c1 (String c2 _) => is_sep c0 c1 c2 || contains_sep rest
      | _ => false
      end
  end.

(** [s] ends with [" >"], the first two characters of the separator. *)
Fixpoint ends_open (s : string) : bool :=
  match s with
  | "" => false
  | String c0 rest =>
      match rest with
      | String c1 "" => (Ascii.eqb c0 " " && Ascii.eqb c1 ">") || ends_open rest
      | _ => ends_open rest
      end
  end.

(** Constructing a signal from a payload that carries the consensus
    string of the four fields gives the four fields back. *)
Definition round_trips (sd ac ep bl : string) : Prop :=
  ∀ signed params,
    get signed "@" = VStr (compose (VStr sd) (VStr ac) (VStr ep) (VStr bl)) →
    ∃ this,
      constructor (mkPayload signed params) None = Ok this ∧
      sender this = VStr sd ∧ action this = VStr ac ∧
      epoch this = VStr ep ∧ block this = VStr bl.

(** ** The contract of a location call *)

(** What the two variants of [locate] promise, for the call [run], the
    lookup [lookup] it consults and the key [number] under which the
    answer carries the block height. *)
Definition location_contract
    (run : option Earth → Signal → result (located_as * Signal))
    (lookup : Earth → value → result (option obj))
    (number : string) : Prop :=
  ∀ (earth : Earth) (this : Signal),
    run None this = Throw MissingCollaborator ∧
    (block this = VUndef → run (Some earth) this = Throw MissingAnchor) ∧
    (block this ≠ VUndef →
     ∀ info, lookup earth (block this) = Ok (Some info) →
       ∃ this',
         run (Some earth) this =
           Ok (ReturnParams
                 (<["blockNumber" := get info number]>
                  (<["timestamp" := get info "timestamp"]> ∅)), this') ∧
         _params_ this' !! "blockNumber" = Some (get info number) ∧
         _params_ this' !! "timestamp" = Some (get info "timestamp") ∧
         (∀ k, k ≠ "blockNumber" → k ≠ "timestamp" →
               _params_ this' !! k = _params_ this !! k) ∧
         this' = with_params (_params_ this') this) ∧
    (block this ≠ VUndef →
     lookup earth (block this) = Ok None →
       ∃ this',
         run (Some earth) this = Ok (ReturnThis, this') ∧
         located this' = false ∧
         _params_ this' !! "blockNumber" = None ∧
         _params_ this' !! "timestamp" = None ∧
         (∀ k, k ≠ "blockNumber" → k ≠ "timestamp" →
               _params_ this' !! k = _params_ this !! k) ∧
         this' = with_params (_params_ this') this).

(** ** Notions used to state further properties *)

(** [-n] *)
Definition negate (n : number) : number :=
  match n with
  | NaN => NaN
  | Int z => Int (- z)
  end.

(** The integers a JavaScript number holds exactly. *)
Definition safe_integer (z : Z) : Prop := (- 2 ^ 53 < z < 2 ^ 53)%Z.

(** The values whose text [to_string] gives as the program writes it:
    [undefined], [null], a boolean, a string, [NaN], and a number that is
    a safe integer.  (From 1e21 on the program writes a number with an
    exponent, ["1e+21"]; [number_to_string] writes all the digits.) *)
Definition exact_text (v : value) : Prop :=
  match v with
  | VNum (Int z) => safe_integer z
  | _ => True
  end.

(** A decimal digit, and a string of decimal digits. *)
Definition is_digit (c : ascii) : bool :=
  match digit_of 10 c with
  | Some _ => true
  | None => false
  end.

Fixpoint all_digits (s : string) : bool :=
  match s with
  | "" => true
  | String c rest => is_digit c && all_digits rest
  end.

(** [segs.join(' > ')] *)
Fixpoint join_sep (segs : list string) : string :=
  match segs with
  | [] => ""
  | [seg] => seg
  | seg :: segs' => seg ++ " > " ++ join_sep segs'
  end.

(** The three optional coordinates the constructor copies. *)
Definition coordinate (key : string) : Prop :=
  key ∈ ["blockNumber"; "timestamp"; "world"].

(** ** Sample collaborators and signals *)

Module Sample.

(** A signal that has only parameters. *)
Definition with_only (params : list (string * value)) : Signal :=
  mkSignal ∅ (list_to_map params) VUndef VUndef VUndef VUndef.

(** A signer that hands back the domain fields it was given. *)
Definition echo_sign (earth : option Earth) (domain : list DomainField)
    (this : Signal) : result (list DomainField * Signal) :=
  Ok (domain, this).

(** A verifier that accepts every signal and leaves it as it is, the
    recovered alias being the parameter [alias]. *)
Definition accept (earth : option Earth) (domain : list DomainField)
    (this : Signal) : result Signal :=
  Ok this.

Definition acceptSync (earth : option Earth) (blockNumber : value)
    (domain : list DomainField) (this : Signal) : result Signal :=
  Ok this.

Definition alias (this : Signal) : value := get (_params_ this) "alias".

(** An identity comparator: the order of the signatures. *)
Definition sig_compare (this that : Signal) : result number :=
  match String.compare (to_string (get (_params_ this) "sig"))
                       (to_string (get (_params_ that) "sig")) with
  | Lt => Ok (Int (-1))
  | Eq => Ok (Int 0)
  | Gt => Ok (Int 1)
  end.

(** An Earth whose chain and clock know one block, ["0xaa"]. *)
Definition one_block (hash : value) : result (option obj) :=
  if strict_eq hash (VStr "0xaa")
  then Ok (Some (<["blockNumber" := VNum (Int 10)]>
                 (<["number" := VNum (Int 10)]>
                 (<["timestamp" := VNum (Int 500)]> ∅))))
  else Ok None.

Definition earth : Earth := mkEarth one_block (λ hash _, one_block hash).

(** Three signals with block numbers 10, 10 and 12. *)
Definition s1 : Signal :=
  with_only [("blockNumber", VNum (Int 10)); ("timestamp", VNum (Int 200));
             ("sig", VStr "0x01")].
Definition s2 : Signal :=
  with_only [("blockNumber", VNum (Int 10)); ("timestamp", VNum (Int 100));
             ("sig", VStr "0x02")].
Definition s3 : Signal :=
  with_only [("blockNumber", VStr "12"); ("timestamp", VNum (Int 300));
             ("sig", VStr "0x03")].

Definition trio (s : Signal) : Prop := s = s1 ∨ s = s2 ∨ s = s3.

(** Two signals located by block number and by timestamp, and one
    located by timestamp only. *)
Definition m1 : Signal :=
  with_only [("blockNumber", VNum (Int 1)); ("timestamp", VNum (Int 300));
             ("sig", VStr "0x01")].
Definition m2 : Signal :=
  with_only [("blockNumber", VNum (Int 2)); ("timestamp", VNum (Int 100));
             ("sig", VStr "0x02")].
Definition m3 : Signal :=
  with_only [("timestamp", VNum (Int 200)); ("sig", VStr "0x03")].

End Sample.

(** * Properties *)

(** ** Values *)

Lemma typeof_undefined v :
  String.eqb (typeof v) "undefined" = true ↔ v = VUndef.
Proof. destruct v; simpl; split; intros H; try done. Qed.

Lemma typeof_defined v :
  String.eqb (typeof v) "undefined" = false ↔ v ≠ VUndef.
Proof.
  rewrite <- typeof_undefined. destruct (String.eqb _ _); split; congruence.
Qed.

Lemma get_lookup (o : obj) k v : o !! k = Some v → get o k = v.
Proof. unfold get. by intros ->. Qed.

Lemma get_absent (o : obj) k : o !! k = None → get o k = VUndef.
Proof. unfold get. by intros ->. Qed.

Lemma elem_of_Object_keys (o : obj) k : k ∈ Object_keys o ↔ is_Some (o !! k).
Proof.
  unfold Object_keys. rewrite list_elem_of_fmap. split.
  - intros [[k' v] [-> Hin]]. apply elem_of_map_to_list in Hin. eauto.
  - intros [v Hv]. exists (k, v). split; [done|]. by apply elem_of_map_to_list.
Qed.

Lemma Object_keys_nil (o : obj) : Object_keys o = [] ↔ o = ∅.
Proof.
  unfold Object_keys. rewrite <- map_to_list_empty_iff.
  destruct (map_to_list o); simpl; split; congruence.
Qed.

(** ** Parameter store *)

Section Keep.

(** The loop shared by [clearLocation] and [customParams]: copy the
    entries whose key passes a test. *)
Context (P : string → Prop) {Pdec : ∀ key, Decision (P key)}.
Variable params : obj.

Let copy (keep : obj) (key : string) : obj :=
  if decide (P key) then <[key := get params key]> keep else keep.

Lemma keep_loop_lookup (keys : list string) (keep : obj) k :
  foldl copy keep keys !! k =
    if decide (k ∈ keys ∧ P k) then Some (get params k) else keep !! k.
Proof.
  revert keep. induction keys as [|key keys IH]; intros keep; cbn [foldl].
  - case_decide as H; [|done]. destruct H as [H _]. by apply elem_of_nil in H.
  - rewrite IH. unfold copy.
    destruct (decide (P key)) as [HP|HP];
      destruct (decide (k = key)) as [->|Hne];
      rewrite ?lookup_insert_eq, ?lookup_insert_ne by done;
      repeat case_decide; try done; exfalso;
      rewrite elem_of_cons in *; tauto.
Qed.

Lemma keep_own_keys k :
  foldl copy ∅ (Object_keys params) !! k =
    if decide (P k) then params !! k else None.
Proof.
  rewrite keep_loop_lookup, lookup_empty.
  pose proof (elem_of_Object_keys params k) as Hkeys.
  destruct (params !! k) as [v|] eqn:Hk.
  - assert (k ∈ Object_keys params) by (apply Hkeys; eauto).
    rewrite (get_lookup _ _ _ Hk).
    repeat case_decide; try done; exfalso; tauto.
  - assert (k ∉ Object_keys params) as Hnot.
    { intros Hin. apply Hkeys in Hin. by destruct Hin. }
    repeat case_decide; try done; exfalso; tauto.
Qed.

End Keep.

Lemma clearLocation_params this :
  _params_ (clearLocation this) =
    delete "timestamp" (delete "blockNumber" (_params_ this)).
Proof.
  apply map_eq. intros k. unfold clearLocation; simpl.
  rewrite (keep_own_keys (λ key, key ≠ "timestamp" ∧ key ≠ "blockNumber")).
  case_decide as H.
  - destruct H. by rewrite !lookup_delete_ne.
  - destruct (decide (k = "timestamp")) as [->|?].
    + by rewrite lookup_delete_eq.
    + rewrite lookup_delete_ne by done.
      destruct (decide (k = "blockNumber")) as [->|?].
      * by rewrite lookup_delete_eq.
      * exfalso. naive_solver.
Qed.

Lemma clearLocation_unlocated this : located (clearLocation this) = false.
Proof.
  unfold located, timestamp, blockNumber. rewrite clearLocation_params.
  unfold get. rewrite lookup_delete_eq.
  rewrite lookup_delete_ne, lookup_delete_eq by done. reflexivity.
Qed.

Lemma standardParams_keys this key :
  key ∈ Object_keys (standardParams this) ↔ standard key.
Proof.
  rewrite elem_of_Object_keys. unfold standardParams, standard.
  rewrite !elem_of_cons, elem_of_nil.
  rewrite !lookup_insert_is_Some, lookup_empty.
  pose proof (@is_Some_None value) as Hnone.
  destruct (decide ("sig" = key)); [intuition|].
  destruct (decide ("alias" = key)); [intuition|].
  destruct (decide ("world" = key)); [intuition|].
  destruct (decide ("timestamp" = key)); [intuition|].
  destruct (decide ("blockNumber" = key)); [intuition|].
  intuition congruence.
Qed.

Lemma indexOf_None (xs : list string) key : indexOf xs key = None ↔ key ∉ xs.
Proof.
  unfold indexOf. rewrite fmap_None, list_find_None, Forall_forall.
  split.
  - intros H Hin. by apply (H key).
  - intros H x Hin ->. done.
Qed.

(** The sibling getter [customParams] filters with the local
    [standardKeys] and keeps exactly the entries outside the reserved
    set. *)
Lemma customParams_lookup this k :
  customParams this !! k =
    if decide (standard k) then None else _params_ this !! k.
Proof.
  unfold customParams.
  rewrite (keep_own_keys
             (λ key, indexOf (Object_keys (standardParams this)) key = None)).
  destruct (decide (standard k)) as [Hs|Hs]; case_decide as Hi.
  - exfalso. apply indexOf_None in Hi. apply Hi, standardParams_keys, Hs.
  - reflexivity.
  - reflexivity.
  - exfalso. apply Hi, indexOf_None. intros Hin.
    apply Hs. exact (proj1 (standardParams_keys this k) Hin).
Qed.

(** [clearCustomParams] stops at the first key: the identifier it reads
    there is bound nowhere. *)
Lemma resolve_standardParams key keys keep :
  resolve [("key", BString key); ("standardKeys", BArray keys);
           ("keep", BObject keep)] "standardParams" =
    Throw (ReferenceError "standardParams").
Proof. reflexivity. Qed.

Lemma clearCustomParams_throws this :
  _params_ this ≠ ∅ →
  clearCustomParams this = Throw (ReferenceError "standardParams").
Proof.
  intros Hne. unfold clearCustomParams.
  destruct (Object_keys (_params_ this)) as [|key keys] eqn:Hkeys.
  - by apply Object_keys_nil in Hkeys.
  - simpl. reflexivity.
Qed.

Lemma clearCustomParams_empty this :
  _params_ this = ∅ → clearCustomParams this = Ok this.
Proof.
  intros He. unfold clearCustomParams.
  assert (Object_keys (_params_ this) = []) as -> by by apply Object_keys_nil.
  simpl. destruct this; simpl in *. by subst.
Qed.

(** C1, at a signal whose parameters are [{ world: "w", note: "x" }]:
    [clearCustomParams] throws [ReferenceError: standardParams is not
    defined] instead of keeping [world] and dropping [note]; the getter
    [customParams], its sibling, does separate the two keys. *)
Theorem clearCustomParams_reference_error :
  let this := Sample.with_only [("world", VStr "w"); ("note", VStr "x")] in
  clearCustomParams this = Throw (ReferenceError "standardParams") ∧
  customParams this = {["note" := VStr "x"]}.
Proof.
  split.
  - apply clearCustomParams_throws. simpl.
    intros H. apply (f_equal (λ m : obj, m !! "world")) in H.
    by rewrite lookup_insert_eq, lookup_empty in H.
  - apply map_eq. intros k. rewrite customParams_lookup. simpl.
    case_decide as Hs.
    + symmetry. apply lookup_singleton_None. intros <-.
      revert Hs. unfold standard. rewrite !elem_of_cons, elem_of_nil.
      intuition discriminate.
    + destruct (decide (k = "note")) as [->|Hn].
      * by rewrite lookup_singleton_eq, lookup_insert_ne, lookup_insert_eq.
      * rewrite lookup_singleton_ne by done.
        rewrite lookup_insert_ne, lookup_insert_ne; [done|done|].
        intros <-. apply Hs. unfold standard. rewrite !elem_of_cons. tauto.
Qed.

(** ** Construction *)

(** The loop over the four required names never throws: [typeof] of a
    name is ["string"]. *)
Lemma required_loop_passes this :
  for_of ["sender"; "action"; "epoch"; "block"] check_required this = Ok this.
Proof. reflexivity. Qed.

Lemma with_params_same this : with_params (_params_ this) this = this.
Proof. by destruct this. Qed.

Lemma set_coord_returns sp coord this :
  ∃ params, set_coord sp coord this = Ok (with_params params this).
Proof.
  unfold set_coord. destruct (negb _).
  - by eexists.
  - exists (_params_ this). by rewrite with_params_same.
Qed.

Lemma coord_loop_returns sp (coords : list string) this :
  ∃ params, for_of coords (set_coord sp) this = Ok (with_params params this).
Proof.
  revert this. induction coords as [|coord coords IH]; intros this.
  - exists (_params_ this). by rewrite with_params_same.
  - cbn [for_of].
    destruct (set_coord_returns sp coord this) as [params ->].
    cbn [mbind result_bind].
    destruct (IH (with_params params this)) as [params' ->].
    by exists params'.
Qed.

(** With explicit parameters the constructor always returns a signal,
    whatever the parameters hold. *)
Lemma constructor_explicit_returns payload sp :
  ∃ this,
    constructor payload (Some sp) = Ok this ∧
    sender this = get sp "sender" ∧ action this = get sp "action" ∧
    epoch this = get sp "epoch" ∧ block this = get sp "block" ∧
    consensus this =
      VStr (compose (get sp "sender") (get sp "action")
                    (get sp "epoch") (get sp "block")).
Proof.
  unfold constructor. rewrite required_loop_passes. cbn [mbind result_bind].
  match goal with
  | |- context [for_of ?cs (set_coord sp) ?s] =>
      destruct (coord_loop_returns sp cs s) as [params ->]
  end.
  eexists. split; [reflexivity|]. cbn.
  repeat split. unfold consensus, get. cbn. by rewrite lookup_insert_eq.
Qed.

(** C2, at [new Signal({}, { action: "vote", epoch: "3", block: "0xaa" })]:
    [sender] is absent, yet construction does not throw; it returns a
    signal whose [sender] is [undefined] and whose consensus string starts
    with the text ["undefined"]. *)
Theorem constructor_accepts_missing_sender :
  ∃ this,
    constructor (mkPayload ∅ ∅)
      (Some (<["action" := VStr "vote"]>
             (<["epoch" := VStr "3"]>
             (<["block" := VStr "0xaa"]> ∅)))) = Ok this ∧
    sender this = VUndef ∧
    consensus this = VStr "undefined > vote > 3 > 0xaa".
Proof.
  destruct (constructor_explicit_returns (mkPayload ∅ ∅)
              (<["action" := VStr "vote"]>
               (<["epoch" := VStr "3"]>
               (<["block" := VStr "0xaa"]> ∅))))
    as (this & Hc & Hs & _ & _ & _ & Hcons).
  exists this. split; [exact Hc|]. split.
  - rewrite Hs. reflexivity.
  - rewrite Hcons. reflexivity.
Qed.

(** ** Consensus codec *)

Lemma split_sep_step c0 c1 c2 s :
  split_sep (String c0 (String c1 (String c2 s))) =
    if is_sep c0 c1 c2 then "" :: split_sep s
    else push_char c0 (split_sep (String c1 (String c2 s))).
Proof. reflexivity. Qed.

Lemma is_sep_open c0 : is_sep c0 " " ">" = false.
Proof. unfold is_sep. by destruct (Ascii.eqb c0 " "). Qed.

Lemma split_sep_not_nil s : split_sep s ≠ [].
Proof.
  assert (∀ c segs, push_char c segs ≠ []) as Hpush by (by intros c [|? ?]).
  destruct s as [|c0 [|c1 [|c2 s]]]; [done|done|done|].
  rewrite split_sep_step. destruct (is_sep c0 c1 c2); [done|apply Hpush].
Qed.

Lemma is_sep_true c0 c1 c2 :
  is_sep c0 c1 c2 = true ↔ c0 = " "%char ∧ c1 = ">"%char ∧ c2 = " "%char.
Proof.
  unfold is_sep. rewrite !andb_true_iff, !Ascii.eqb_eq. tauto.
Qed.

(** The two predicates say what their names say. *)
Lemma contains_sep_spec s :
  contains_sep s = true ↔ ∃ l r, s = l ++ " > " ++ r.
Proof.
  split.
  - induction s as [|c0 s IH]; [done|].
    destruct s as [|c1 [|c2 s]]; [done|done|].
    cbn [contains_sep]. intros [Hsep|Hrest]%orb_true_iff.
    + apply is_sep_true in Hsep as (-> & -> & ->). by exists "", s.
    + destruct (IH Hrest) as (l & r & ->). by exists (String c0 l), r.
  - intros (l & r & ->). induction l as [|c0 l IH]; [done|].
    assert (∃ c1 c2 t, l ++ " > " ++ r = String c1 (String c2 t))
      as (c1 & c2 & t & Ht).
    { destruct l as [|c1 [|c2 l]]; cbn; eauto. }
    change (String c0 l ++ " > " ++ r) with (String c0 (l ++ " > " ++ r)).
    rewrite Ht in *.
    change (contains_sep (String c0 (String c1 (String c2 t))))
      with (is_sep c0 c1 c2 || contains_sep (String c1 (String c2 t))).
    rewrite IH. apply orb_true_r.
Qed.

Lemma ends_open_spec s : ends_open s = true ↔ ∃ l, s = l ++ " >".
Proof.
  split.
  - induction s as [|c0 s IH]; [done|].
    destruct s as [|c1 [|c2 s]]; [done| |].
    + cbn [ends_open]. rewrite orb_false_r, andb_true_iff, !Ascii.eqb_eq.
      intros [-> ->]. by exists "".
    + intros H. destruct (IH H) as [l Hl]. exists (String c0 l).
      change (String c0 l ++ " >") with (String c0 (l ++ " >")).
      by rewrite <- Hl.
  - intros (l & ->). induction l as [|c0 l IH]; [done|].
    destruct l as [|c1 l]; [done|].
    assert (∃ c2 t, l ++ " >" = String c2 t) as (c2 & t & Ht).
    { destruct l; cbn; eauto. }
    change (String c0 (String c1 l) ++ " >")
      with (String c0 (String c1 (l ++ " >"))).
    change (String c1 l ++ " >") with (String c1 (l ++ " >")) in IH.
    rewrite Ht in *. exact IH.
Qed.

(** A string without the separator is one segment. *)
Lemma split_sep_whole s : contains_sep s = false → split_sep s = [s].
Proof.
  induction s as [|c0 s IH]; [done|].
  destruct s as [|c1 [|c2 s]]; [done|done|].
  intros H. cbn [contains_sep] in H. apply orb_false_iff in H as [Hsep Hrest].
  rewrite split_sep_step, Hsep, (IH Hrest). reflexivity.
Qed.

(** A field that has no separator inside and does not end with [" >"] is
    read back as the first segment of what follows. *)
Lemma split_sep_field s r :
  contains_sep s = false → ends_open s = false →
  split_sep (s ++ " > " ++ r) = s :: split_sep r.
Proof.
  induction s as [|c0 s IH]; [done|].
  destruct s as [|c1 [|c2 s]]; intros Hin Hend.
  - change (String c0 "" ++ " > " ++ r)
      with (String c0 (String " " (String ">" (String " " r)))).
    rewrite split_sep_step, is_sep_open. reflexivity.
  - cbn [ends_open] in Hend. apply orb_false_iff in Hend as [Hend _].
    change (String c0 (String c1 "") ++ " > " ++ r)
      with (String c0 (String c1 (String " " (String ">" (String " " r))))).
    rewrite split_sep_step. unfold is_sep. rewrite Hend. cbn [andb].
    change (String c1 (String " " (String ">" (String " " r))))
      with (String c1 "" ++ " > " ++ r).
    rewrite IH by reflexivity. reflexivity.
  - cbn [contains_sep] in Hin. apply orb_false_iff in Hin as [Hsep Hin].
    change (String c0 (String c1 (String c2 s)) ++ " > " ++ r)
      with (String c0 (String c1 (String c2 (s ++ " > " ++ r)))).
    rewrite split_sep_step, Hsep.
    change (String c1 (String c2 (s ++ " > " ++ r)))
      with (String c1 (String c2 s) ++ " > " ++ r).
    rewrite IH; [reflexivity|exact Hin|exact Hend].
Qed.

Lemma append_sep_nonempty s r : String.eqb (s ++ " > " ++ r) "" = false.
Proof. by destruct s. Qed.

(** Parsing does not throw on a non-empty consensus string: the four
    fields are the first four segments, position by position. *)
Lemma constructor_parses signed params c :
  get signed "@" = VStr c → c ≠ "" →
  constructor (mkPayload signed params) None =
    Ok (with_claim (at_index (split_sep c) 0) (at_index (split_sep c) 1)
                   (at_index (split_sep c) 2) (at_index (split_sep c) 3)
                   (super_new (mkPayload signed params))).
Proof.
  intros Hc Hne. unfold constructor, consensus.
  cbn [super_new _signed_ payload_signed].
  rewrite Hc. cbn [truthy].
  destruct (String.eqb_spec c ""); [done|]. reflexivity.
Qed.

Lemma at_index_undefined sp i : at_index sp i = VUndef ↔ (length sp ≤ i)%nat.
Proof.
  unfold at_index. rewrite <- lookup_ge_None.
  destruct (sp !! i); split; congruence.
Qed.

(** Under these conditions the composed string splits into the four
    fields, so [compose] is injective on them. *)
Lemma split_sep_compose sd ac ep bl :
  contains_sep sd = false → contains_sep ac = false →
  contains_sep ep = false → contains_sep bl = false →
  ends_open sd = false → ends_open ac = false → ends_open ep = false →
  split_sep (compose (VStr sd) (VStr ac) (VStr ep) (VStr bl)) =
    [sd; ac; ep; bl].
Proof.
  intros Hsd Hac Hep Hbl Esd Eac Eep. unfold compose. cbn [to_string].
  by rewrite !split_sep_field, (split_sep_whole bl).
Qed.

(** [compose] is injective on claims whose fields are free of the
    separator and, for the first three, of a trailing [" >"]: two such
    claims with the same consensus string are the same claim. *)
Lemma compose_injective sd ac ep bl sd' ac' ep' bl' :
  contains_sep sd = false → contains_sep ac = false →
  contains_sep ep = false → contains_sep bl = false →
  ends_open sd = false → ends_open ac = false → ends_open ep = false →
  contains_sep sd' = false → contains_sep ac' = false →
  contains_sep ep' = false → contains_sep bl' = false →
  ends_open sd' = false → ends_open ac' = false → ends_open ep' = false →
  compose (VStr sd) (VStr ac) (VStr ep) (VStr bl) =
    compose (VStr sd') (VStr ac') (VStr ep') (VStr bl') →
  (sd, ac, ep, bl) = (sd', ac', ep', bl').
Proof.
  intros ? ? ? ? ? ? ? ? ? ? ? ? ? ? Heq.
  apply (f_equal split_sep) in Heq.
  rewrite !split_sep_compose in Heq by done. congruence.
Qed.

(** C3, as stated, is false at [("a >", "b", "c", "d")]: no field contains
    [" > "], but the string ["a > > b > c > d"] is read back with sender
    ["a"] and action ["> b"]. *)
Lemma round_trip_open_field :
  contains_sep "a >" = false ∧ contains_sep "b" = false ∧
  contains_sep "c" = false ∧ contains_sep "d" = false ∧
  ¬ round_trips "a >" "b" "c" "d".
Proof.
  repeat split. intros H.
  destruct (H {["@" := VStr (compose (VStr "a >") (VStr "b")
                                     (VStr "c") (VStr "d"))]} ∅)
    as (this & Hc & Hs & _).
  { reflexivity. }
  rewrite constructor_parses with (c := "a > > b > c > d") in Hc
    by (reflexivity || discriminate).
  injection Hc as <-. discriminate Hs.
Qed.

(** C3, amended: for strings [sender], [action], [epoch] and [block] none
    of which contains [" > "], and the first three of which do not end
    with [" >"], constructing a signal from a payload whose ['@'] field is
    the composed consensus string yields exactly the four strings. *)
Theorem round_trip sd ac ep bl :
  contains_sep sd = false → contains_sep ac = false →
  contains_sep ep = false → contains_sep bl = false →
  ends_open sd = false → ends_open ac = false → ends_open ep = false →
  round_trips sd ac ep bl.
Proof.
  intros Hsd Hac Hep Hbl Esd Eac Eep signed params Hc.
  eexists. split.
  - apply constructor_parses; [exact Hc|].
    unfold compose. cbn [to_string]. intros H.
    apply String.eqb_eq in H. by rewrite append_sep_nonempty in H.
  - rewrite split_sep_compose by done. repeat split.
Qed.

Lemma round_trip_witness : round_trips "alice" "vote" "3" "0xaa".
Proof. apply (round_trip "alice" "vote" "3" "0xaa"); reflexivity. Defined.

(** C7, as stated, is false at ["a > b > c > d > e"] (five segments):
    construction returns a signal with all four fields defined.  At
    ["a > b"] (two segments) it returns one with [sender] and [action] set
    and the other two [undefined]. *)
Lemma malformed_consensus_accepted :
  length (split_sep "a > b > c > d > e") = 5%nat ∧
  constructor (mkPayload {["@" := VStr "a > b > c > d > e"]} ∅) None =
    Ok (mkSignal {["@" := VStr "a > b > c > d > e"]} ∅
          (VStr "a") (VStr "b") (VStr "c") (VStr "d")) ∧
  length (split_sep "a > b") = 2%nat ∧
  constructor (mkPayload {["@" := VStr "a > b"]} ∅) None =
    Ok (mkSignal {["@" := VStr "a > b"]} ∅
          (VStr "a") (VStr "b") VUndef VUndef).
Proof.
  split; [reflexivity|]. split.
  { by rewrite constructor_parses with (c := "a > b > c > d > e"). }
  split; [reflexivity|].
  by rewrite constructor_parses with (c := "a > b").
Qed.

(** C7, amended: parsing a non-empty consensus string at construction
    never fails.  The four fields are the first four segments, position
    by position; a field is [undefined] exactly when the string has no
    segment at its position.  So a string with fewer than four segments
    sets the leading fields and leaves the rest [undefined], and one with
    more than four sets all four and ignores the extra segments. *)
Theorem parse_positional signed params c :
  get signed "@" = VStr c → c ≠ "" →
  ∃ this,
    constructor (mkPayload signed params) None = Ok this ∧
    sender this = at_index (split_sep c) 0 ∧
    action this = at_index (split_sep c) 1 ∧
    epoch this = at_index (split_sep c) 2 ∧
    block this = at_index (split_sep c) 3 ∧
    sender this ≠ VUndef ∧
    (action this = VUndef ↔ (length (split_sep c) ≤ 1)%nat) ∧
    (epoch this = VUndef ↔ (length (split_sep c) ≤ 2)%nat) ∧
    (block this = VUndef ↔ (length (split_sep c) ≤ 3)%nat).
Proof.
  intros Hc Hne. eexists. split; [by apply constructor_parses|].
  cbn [sender action epoch block with_claim].
  do 4 (split; [reflexivity|]).
  split; [|repeat split; apply at_index_undefined].
  intros Hu. apply at_index_undefined in Hu.
  pose proof (split_sep_not_nil c) as Hnil.
  destruct (split_sep c); [done|]. cbn in Hu. lia.
Qed.

Lemma parse_positional_witness :
  ∃ this,
    constructor (mkPayload {["@" := VStr "bob > move > 1"]} ∅) None = Ok this ∧
    sender this = VStr "bob" ∧ action this = VStr "move" ∧
    epoch this = VStr "1" ∧ block this = VUndef.
Proof.
  destruct (parse_positional {["@" := VStr "bob > move > 1"]} ∅
              "bob > move > 1")
    as (this & Hc & Hs & Ha & He & Hb & _); [reflexivity|discriminate|].
  exists this. by repeat split.
Defined.

(** ** Location *)

Lemma addParams_lookup partial this k :
  _params_ (addParams partial this) !! k =
    match partial !! k with
    | Some v => Some v
    | None => _params_ this !! k
    end.
Proof.
  unfold addParams. cbn [_params_ with_params].
  rewrite lookup_union. by destruct (partial !! k), (_params_ this !! k).
Qed.

Section Locate.

(** Both variants are the same steps around a different lookup. *)
Variable run : option Earth → Signal → result (located_as * Signal).
Variable lookup : Earth → value → result (option obj).
Variable number : string.

Hypothesis run_steps : ∀ earth this,
  run earth this =
    match earth with
    | None => Throw MissingCollaborator
    | Some earth =>
        if String.eqb (typeof (block this)) "undefined"
        then Throw MissingAnchor
        else
          info ← lookup earth (block this);
          match info with
          | Some info =>
              let params : obj :=
                <["blockNumber" := get info number]>
                (<["timestamp" := get info "timestamp"]> ∅) in
              Ok (ReturnParams params, addParams params this)
          | None => Ok (ReturnThis, clearLocation this)
          end
    end.

Lemma run_contract : location_contract run lookup number.
Proof.
  intros earth this. rewrite !run_steps. split; [reflexivity|].
  split; [by intros ->|].
  split.
  - intros Hb info Hinfo. apply typeof_defined in Hb.
    rewrite Hb, Hinfo. cbn [mbind result_bind].
    eexists. split; [reflexivity|].
    rewrite !addParams_lookup.
    split; [by rewrite lookup_insert_eq|].
    split; [by rewrite lookup_insert_ne, lookup_insert_eq|].
    split; [|reflexivity].
    intros k Hbn Hts. rewrite addParams_lookup.
    by rewrite !lookup_insert_ne, lookup_empty.
  - intros Hb Hinfo. apply typeof_defined in Hb.
    rewrite Hb, Hinfo. cbn [mbind result_bind].
    eexists. split; [reflexivity|].
    split; [apply clearLocation_unlocated|].
    assert (clearLocation this =
              with_params (_params_ (clearLocation this)) this) as Hsame
      by reflexivity.
    rewrite clearLocation_params in *.
    split; [by rewrite lookup_delete_ne, lookup_delete_eq|].
    split; [by rewrite lookup_delete_eq|].
    split; [|exact Hsame].
    intros k Hbn Hts. by rewrite !lookup_delete_ne.
Qed.

End Locate.

(** C8: [locate] and [locateSync] throw the missing-collaborator error
    without an Earth instance and the missing-anchor error when [block] is
    [undefined]; when the lookup answers, they merge the block number and
    the timestamp of the answer into the parameters and return that pair;
    when it has no data, they remove [timestamp] and [blockNumber] only:
    the signal is then not located and every other parameter, custom ones
    included, is as before. *)
Theorem locate_contract :
  location_contract locate getBlock "blockNumber" ∧
  ∀ confirm,
    location_contract (λ earth, locateSync earth confirm)
                      (λ earth hash, readHash earth hash confirm) "number".
Proof.
  split; [|intros confirm]; apply run_contract; by intros [earth|] this.
Qed.

Lemma locate_contract_witness :
  (let this := mkSignal ∅ {["note" := VStr "x"]}
                 (VStr "alice") (VStr "vote") (VStr "3") (VStr "0xaa") in
   ∃ this',
     locate (Some Sample.earth) this =
       Ok (ReturnParams (<["blockNumber" := VNum (Int 10)]>
                         (<["timestamp" := VNum (Int 500)]> ∅)), this') ∧
     _params_ this' !! "note" = Some (VStr "x")) ∧
  (let this := mkSignal ∅ (<["note" := VStr "x"]>
                           {["timestamp" := VNum (Int 7)]})
                 (VStr "alice") (VStr "vote") (VStr "3") (VStr "0xbb") in
   ∃ this',
     locateSync (Some Sample.earth) (VBool true) this = Ok (ReturnThis, this') ∧
     located this' = false ∧
     _params_ this' !! "note" = Some (VStr "x")).
Proof.
  destruct locate_contract as [Hasync Hsync]. split.
  - intros this.
    destruct (Hasync Sample.earth this) as (_ & _ & Hfound & _).
    destruct (Hfound ltac:(discriminate) _ eq_refl)
      as (this' & Hrun & _ & _ & Hrest & _).
    exists this'. split; [exact Hrun|].
    rewrite Hrest by discriminate. reflexivity.
  - intros this.
    destruct (Hsync (VBool true) Sample.earth this) as (_ & _ & _ & Hnone).
    destruct (Hnone ltac:(discriminate) eq_refl)
      as (this' & Hrun & Hloc & _ & _ & Hrest & _).
    exists this'. split; [exact Hrun|]. split; [exact Hloc|].
    rewrite Hrest by discriminate. reflexivity.
Defined.

(** ** Signing and verification *)

Section Verification.

Variable authorAlias : Signal → value.

(** Both [verify] and [verifySync] are the guard on [sender], the
    inherited check, then the comparison with the recovered alias. *)
Variable run : Signal → result Signal.
Variable inherited : list DomainField → Signal → result Signal.

Hypothesis run_steps : ∀ this,
  run this =
    if String.eqb (typeof (sender this)) "undefined" then Throw MissingSender
    else
      this ← inherited [mkDomainField "name" "string" (world this)] this;
      check_sender authorAlias this.

Lemma run_missing_sender this :
  sender this = VUndef → run this = Throw MissingSender.
Proof. intros Hs. by rewrite run_steps, Hs. Qed.

Lemma run_after_inherited this :
  sender this ≠ VUndef →
  run this =
    inherited [mkDomainField "name" "string" (world this)] this
      ≫= check_sender authorAlias.
Proof. intros Hs. apply typeof_defined in Hs. by rewrite run_steps, Hs. Qed.

Lemma run_mismatch this this' :
  sender this ≠ VUndef →
  inherited [mkDomainField "name" "string" (world this)] this = Ok this' →
  strict_eq (sender this') (authorAlias this') = false →
  run this = Throw SenderMismatch.
Proof.
  intros Hs Hv Hne. rewrite run_after_inherited, Hv by done.
  cbn [mbind result_bind]. unfold check_sender. by rewrite Hne.
Qed.

Lemma run_match this this' :
  sender this ≠ VUndef →
  inherited [mkDomainField "name" "string" (world this)] this = Ok this' →
  strict_eq (sender this') (authorAlias this') = true →
  run this = Ok this'.
Proof.
  intros Hs Hv Heq. rewrite run_after_inherited, Hv by done.
  cbn [mbind result_bind]. unfold check_sender. by rewrite Heq.
Qed.

(** An error of [run] is one of its own two or the inherited one. *)
Lemma run_errors this e :
  run this = Throw e →
  e = MissingSender ∨ e = SenderMismatch ∨
  inherited [mkDomainField "name" "string" (world this)] this = Throw e.
Proof.
  rewrite run_steps. destruct (String.eqb _ _); [intros [= <-]; auto|].
  destruct (inherited _ this) as [this'|e']; cbn [mbind result_bind].
  - unfold check_sender. destruct (negb _); [intros [= <-]; auto|done].
  - intros [= <-]. auto.
Qed.

End Verification.

(** C9: [verify] and [verifySync] throw the missing-sender error when
    [sender] is [undefined]; otherwise they run the inherited verification
    with the domain field [name] set to the world, and once it has
    returned they throw the sender-mismatch error when [sender] is not
    strictly equal to the recovered [authorAlias], and return the signal
    when it is. *)
Theorem verify_checks_sender
    (super_verify : option Earth → list DomainField → Signal → result Signal)
    (super_verifySync :
       option Earth → value → list DomainField → Signal → result Signal)
    (authorAlias : Signal → value)
    (earth : option Earth) (blockNumber : value) (this : Signal) :
  let domain := [mkDomainField "name" "string" (world this)] in
  (sender this = VUndef →
     verify super_verify authorAlias earth this = Throw MissingSender ∧
     verifySync super_verifySync authorAlias earth blockNumber this =
       Throw MissingSender) ∧
  (sender this ≠ VUndef →
     (∀ this', super_verify earth domain this = Ok this' →
        (strict_eq (sender this') (authorAlias this') = false →
           verify super_verify authorAlias earth this = Throw SenderMismatch) ∧
        (strict_eq (sender this') (authorAlias this') = true →
           verify super_verify authorAlias earth this = Ok this')) ∧
     (∀ this', super_verifySync earth blockNumber domain this = Ok this' →
        (strict_eq (sender this') (authorAlias this') = false →
           verifySync super_verifySync authorAlias earth blockNumber this =
             Throw SenderMismatch) ∧
        (strict_eq (sender this') (authorAlias this') = true →
           verifySync super_verifySync authorAlias earth blockNumber this =
             Ok this'))).
Proof.
  intros domain. split; [intros Hs; split|intros Hs; split; intros this' Hv; split].
  - by apply (run_missing_sender authorAlias _ (super_verify earth)).
  - by apply (run_missing_sender authorAlias _
                (super_verifySync earth blockNumber)).
  - by apply (run_mismatch authorAlias _ (super_verify earth)).
  - by apply (run_match authorAlias _ (super_verify earth)).
  - by apply (run_mismatch authorAlias _ (super_verifySync earth blockNumber)).
  - by apply (run_match authorAlias _ (super_verifySync earth blockNumber)).
Qed.

(** Scenario E: declared sender ["carol"], recovered alias ["dave"]. *)
Lemma verify_checks_sender_witness :
  let carol :=
    mkSignal ∅ {["alias" := VStr "dave"]}
      (VStr "carol") (VStr "vote") (VStr "3") (VStr "0xaa") in
  let dave :=
    mkSignal ∅ {["alias" := VStr "dave"]}
      (VStr "dave") (VStr "vote") (VStr "3") (VStr "0xaa") in
  verify Sample.accept Sample.alias None carol = Throw SenderMismatch ∧
  verifySync Sample.acceptSync Sample.alias None VUndef dave = Ok dave.
Proof.
  intros carol dave. split.
  - destruct (verify_checks_sender Sample.accept Sample.acceptSync
                Sample.alias None VUndef carol) as [_ H].
    destruct (H ltac:(discriminate)) as [Hv _].
    destruct (Hv carol eq_refl) as [Hne _]. exact (Hne eq_refl).
  - destruct (verify_checks_sender Sample.accept Sample.acceptSync
                Sample.alias None VUndef dave) as [_ H].
    destruct (H ltac:(discriminate)) as [_ Hv].
    destruct (Hv dave eq_refl) as [_ Heq]. exact (Heq eq_refl).
Defined.

(** C10: [sign], [verify] and [verifySync] hand the inherited method one
    domain field, [{ name: 'name', type: 'string', value }], whose value
    is the parameter [world] as it is at the call, [undefined] when the
    parameter was never set.  None of them looks at that value: an error
    of [sign] is the inherited one, and an error of [verify] or
    [verifySync] is the missing-sender error, the sender-mismatch error
    or the inherited one. *)
Theorem world_is_domain_name {Signed : Type}
    (super_sign :
       option Earth → list DomainField → Signal → result (Signed * Signal))
    (super_verify : option Earth → list DomainField → Signal → result Signal)
    (super_verifySync :
       option Earth → value → list DomainField → Signal → result Signal)
    (authorAlias : Signal → value)
    (earth : option Earth) (blockNumber : value) (this : Signal) :
  let domain := [mkDomainField "name" "string" (get (_params_ this) "world")] in
  (_params_ this !! "world" = None →
     domain = [mkDomainField "name" "string" VUndef]) ∧
  sign super_sign earth this = super_sign earth domain this ∧
  (sender this ≠ VUndef →
     verify super_verify authorAlias earth this =
       super_verify earth domain this ≫= check_sender authorAlias) ∧
  (sender this ≠ VUndef →
     verifySync super_verifySync authorAlias earth blockNumber this =
       super_verifySync earth blockNumber domain this
         ≫= check_sender authorAlias) ∧
  (∀ e, verify super_verify authorAlias earth this = Throw e →
        e = MissingSender ∨ e = SenderMismatch ∨
        super_verify earth domain this = Throw e) ∧
  (∀ e, verifySync super_verifySync authorAlias earth blockNumber this =
          Throw e →
        e = MissingSender ∨ e = SenderMismatch ∨
        super_verifySync earth blockNumber domain this = Throw e).
Proof.
  intros domain. split; [|split; [|split; [|split; [|split]]]].
  - intros Hw. unfold domain. by rewrite (get_absent _ _ Hw).
  - reflexivity.
  - by apply (run_after_inherited authorAlias _ (super_verify earth)).
  - by apply (run_after_inherited authorAlias _
                (super_verifySync earth blockNumber)).
  - by apply (run_errors authorAlias _ (super_verify earth)).
  - by apply (run_errors authorAlias _ (super_verifySync earth blockNumber)).
Qed.

(** A signal whose world was never set, signed by a signer that shows the
    domain it received, and verified. *)
Lemma world_is_domain_name_witness :
  let this :=
    mkSignal ∅ {["alias" := VStr "alice"]}
      (VStr "alice") (VStr "vote") (VStr "3") (VStr "0xaa") in
  sign Sample.echo_sign None this =
    Ok ([mkDomainField "name" "string" VUndef], this) ∧
  verify Sample.accept Sample.alias None this = Ok this ∧
  verifySync Sample.acceptSync Sample.alias None VUndef this = Ok this.
Proof.
  intros this.
  destruct (world_is_domain_name Sample.echo_sign Sample.accept
              Sample.acceptSync Sample.alias None VUndef this)
    as (Hd & Hsign & Hv & Hs & _).
  split; [|split].
  - rewrite Hsign, (Hd eq_refl). reflexivity.
  - rewrite (Hv ltac:(discriminate)). reflexivity.
  - rewrite (Hs ltac:(discriminate)). reflexivity.
Defined.

(** ** Comparison *)

Lemma before_iff cmp a b :
  before cmp a b ↔
  match cmp a b with
  | Ok (Int z) => (z <? 0)%Z = true
  | _ => False
  end.
Proof.
  unfold before. split.
  - intros (z & -> & Hz). by apply Z.ltb_lt.
  - destruct (cmp a b) as [[|z]|]; try done.
    intros Hz. exists z. split; [done|]. by apply Z.ltb_lt.
Qed.

Lemma same_int x y : same (Some (Int x)) (Some (Int y)) = bool_decide (x = y).
Proof.
  cbn. destruct (Z.eqb_spec x y).
  - by rewrite bool_decide_eq_true_2.
  - by rewrite bool_decide_eq_false_2.
Qed.

Section Compare.

Variable super_compare : Signal → Signal → result number.

Lemma compare_unlocated this that :
  located this && located that = false →
  compare super_compare this that = Throw NotLocated.
Proof. intros H. unfold compare. by rewrite H. Qed.

(** The pair of values [compare] settles on. *)
Lemma compare_located this that :
  located this = true → located that = true →
  compare super_compare this that =
    let keys :=
      if defined (blockNumber this) && defined (blockNumber that)
      then (blockNumber this, blockNumber that)
      else (timestamp this, timestamp that) in
    if same keys.1 keys.2 then super_compare this that
    else Ok (minus keys.1 keys.2).
Proof.
  intros Ha Hb. unfold compare. rewrite Ha, Hb. cbn [andb negb].
  by destruct (defined (blockNumber this)), (defined (blockNumber that)).
Qed.

Lemma located_numbered this n : blockNumber this = Some n → located this = true.
Proof. unfold located. intros ->. cbn. apply orb_true_r. Qed.

Lemma located_timed this n : timestamp this = Some n → located this = true.
Proof. unfold located. by intros ->. Qed.

Lemma compare_numbered this that x y :
  blockNumber this = Some (Int x) → blockNumber that = Some (Int y) →
  compare super_compare this that =
    if bool_decide (x = y) then super_compare this that
    else Ok (Int (x - y)).
Proof.
  intros Ha Hb.
  rewrite compare_located by eauto using located_numbered.
  rewrite Ha, Hb. cbn [defined andb fst snd]. by rewrite same_int.
Qed.

Lemma compare_timed this that x y :
  blockNumber this = None ∨ blockNumber that = None →
  timestamp this = Some (Int x) → timestamp that = Some (Int y) →
  compare super_compare this that =
    if bool_decide (x = y) then super_compare this that
    else Ok (Int (x - y)).
Proof.
  intros Hbn Ha Hb.
  rewrite compare_located by eauto using located_timed.
  assert (defined (blockNumber this) && defined (blockNumber that) = false)
    as ->.
  { destruct Hbn as [-> | ->]; [done|apply andb_false_r]. }
  rewrite Ha, Hb. cbn [fst snd]. by rewrite same_int.
Qed.

(** Whenever [compare] reads an integer key of each signal, the order is
    the order of the keys, then the inherited one. *)
Section Keyed.

Variable keyed : Signal → Z → Prop.
Variable members : Signal → Prop.

Hypothesis members_keyed : ∀ s, members s → ∃ k, keyed s k.
Hypothesis compare_keyed : ∀ a b x y,
  members a → members b → keyed a x → keyed b y →
  compare super_compare a b =
    if bool_decide (x = y) then super_compare a b else Ok (Int (x - y)).
Hypothesis inherited_order : strict_total_order_on members super_compare.

Lemma before_keyed a b x y :
  members a → members b → keyed a x → keyed b y →
  before (compare super_compare) a b ↔
  (x < y)%Z ∨ (x = y ∧ before super_compare a b).
Proof.
  intros Ma Mb Ka Kb. unfold before at 1.
  rewrite (compare_keyed a b x y) by done.
  case_bool_decide as Hxy.
  - split; [intros H; right; by split|by intros [?|[_ ?]]; [lia|]].
  - split.
    + intros (z & [= <-] & Hz). left. lia.
    + intros [Hlt|[? _]]; [|done]. exists (x - y)%Z. split; [done|lia].
Qed.

Lemma keyed_order : strict_total_order_on members (compare super_compare).
Proof.
  destruct inherited_order as (Hanti & Htrans & Hties).
  split; [|split].
  - intros a b z Ma Mb.
    destruct (members_keyed a Ma) as [x Ka].
    destruct (members_keyed b Mb) as [y Kb].
    rewrite (compare_keyed a b x y), (compare_keyed b a y x) by done.
    repeat case_bool_decide; try lia.
    + by apply Hanti.
    + intros [= <-]. eexists. split; [done|]. lia.
  - intros a b c Ma Mb Mc.
    destruct (members_keyed a Ma) as [x Ka].
    destruct (members_keyed b Mb) as [y Kb].
    destruct (members_keyed c Mc) as [w Kc].
    rewrite (before_keyed a b x y), (before_keyed b c y w),
      (before_keyed a c x w) by done.
    intros [?|[-> Hab]] [?|[-> Hbc]]; try (left; lia).
    right. split; [done|]. by apply (Htrans a b c).
  - intros a b Ma Mb Hne.
    destruct (members_keyed a Ma) as [x Ka].
    destruct (members_keyed b Mb) as [y Kb].
    rewrite (compare_keyed a b x y) by done.
    case_bool_decide.
    + by apply Hties.
    + exists (x - y)%Z. split; [done|lia].
Qed.

End Keyed.

End Compare.

(** C5, as stated, is false at a signal that has only the block number
    5 and one that has only the timestamp 9.  Both are located and the
    second has no block number, so [compare] reads the timestamps, of
    which the first is [undefined]: the result is [NaN] in both
    directions, which puts neither signal before the other, and the
    inherited comparator is not asked.  The same happens with a block
    number that does not parse. *)
Lemma compare_unordered :
  let a := Sample.with_only [("blockNumber", VNum (Int 5))] in
  let b := Sample.with_only [("timestamp", VNum (Int 9))] in
  let odd := Sample.with_only [("blockNumber", VStr "latest")] in
  located a = true ∧ located b = true ∧ blockNumber b = None ∧
  compare Sample.sig_compare a b = Ok NaN ∧
  compare Sample.sig_compare b a = Ok NaN ∧
  ¬ before (compare Sample.sig_compare) a b ∧
  ¬ before (compare Sample.sig_compare) b a ∧
  located odd = true ∧
  compare Sample.sig_compare odd a = Ok NaN ∧
  compare Sample.sig_compare a odd = Ok NaN.
Proof.
  intros a b odd.
  assert (compare Sample.sig_compare a b = Ok NaN) as Hab by by vm_compute.
  assert (compare Sample.sig_compare b a = Ok NaN) as Hba by by vm_compute.
  do 3 (split; [by vm_compute|]).
  split; [exact Hab|]. split; [exact Hba|].
  split; [intros H; apply before_iff in H; by rewrite Hab in H|].
  split; [intros H; apply before_iff in H; by rewrite Hba in H|].
  repeat split; by vm_compute.
Qed.

(** C5, amended: [compare] throws the not-located error unless both
    signals are located.  Otherwise it works on the two block numbers
    when both are defined and on the two timestamps when either block
    number is undefined.  When the two values it works on are strictly
    equal it delegates to the inherited identity comparator.  When they
    are two different safe integers it orders ascending: the first signal
    sorts before the second exactly when its value is the smaller, and
    the result is their difference when that is a safe integer too.  When
    one of the two values is [undefined] or [NaN] the result is [NaN],
    which orders nothing. *)
Theorem compare_contract
    (super_compare : Signal → Signal → result number) (this that : Signal) :
  (located this && located that = false →
     compare super_compare this that = Throw NotLocated) ∧
  (located this = true → located that = true →
     compare super_compare this that = Throw NotLocated →
     super_compare this that = Throw NotLocated) ∧
  (∀ x y, blockNumber this = Some (Int x) → blockNumber that = Some (Int y) →
     safe_integer x → safe_integer y → x ≠ y →
     (before (compare super_compare) this that ↔ (x < y)%Z) ∧
     (safe_integer (x - y) →
      compare super_compare this that = Ok (Int (x - y)))) ∧
  (∀ x y, blockNumber this = None ∨ blockNumber that = None →
     timestamp this = Some (Int x) → timestamp that = Some (Int y) →
     safe_integer x → safe_integer y → x ≠ y →
     (before (compare super_compare) this that ↔ (x < y)%Z) ∧
     (safe_integer (x - y) →
      compare super_compare this that = Ok (Int (x - y)))) ∧
  (∀ x, blockNumber this = Some (Int x) → blockNumber that = Some (Int x) →
     compare super_compare this that = super_compare this that) ∧
  (∀ x, blockNumber this = None ∨ blockNumber that = None →
     timestamp this = Some (Int x) → timestamp that = Some (Int x) →
     compare super_compare this that = super_compare this that) ∧
  (located this = true → located that = true →
     ∀ i0 i1,
       (i0, i1) =
         (if defined (blockNumber this) && defined (blockNumber that)
          then (blockNumber this, blockNumber that)
          else (timestamp this, timestamp that)) →
       i0 = None ∨ i1 = None ∨ i0 = Some NaN ∨ i1 = Some NaN →
       compare super_compare this that = Ok NaN).
Proof.
  assert (∀ x y, x ≠ y →
            compare super_compare this that = Ok (Int (x - y)) →
            before (compare super_compare) this that ↔ (x < y)%Z) as Hasc.
  { intros x y Hne Hc. rewrite before_iff, Hc, Z.ltb_lt. lia. }
  split; [apply compare_unlocated|].
  split.
  { intros Ha Hb. rewrite compare_located by done. cbn zeta.
    by destruct (same _ _). }
  split.
  { intros x y Ha Hb _ _ Hne.
    assert (compare super_compare this that = Ok (Int (x - y))) as Hc.
    { rewrite (compare_numbered _ _ _ x y) by done.
      by rewrite bool_decide_eq_false_2. }
    split; [by apply Hasc|by intros _]. }
  split.
  { intros x y Hbn Ha Hb _ _ Hne.
    assert (compare super_compare this that = Ok (Int (x - y))) as Hc.
    { rewrite (compare_timed _ _ _ x y) by done.
      by rewrite bool_decide_eq_false_2. }
    split; [by apply Hasc|by intros _]. }
  split.
  { intros x Ha Hb. rewrite (compare_numbered _ _ _ x x) by done.
    by rewrite bool_decide_eq_true_2. }
  split.
  { intros x Hbn Ha Hb. rewrite (compare_timed _ _ _ x x) by done.
    by rewrite bool_decide_eq_true_2. }
  intros Ha Hb i0 i1 Hk Hodd. rewrite compare_located by done.
  cbn zeta. rewrite <- Hk. cbn [fst snd].
  assert (¬ (i0 = None ∧ i1 = None)) as Hboth.
  { intros [-> ->]. unfold located in Ha, Hb.
    destruct (blockNumber this) as [n|], (blockNumber that) as [m|];
      cbn [defined andb] in Hk; injection Hk as Hta Htb;
      try discriminate; rewrite <- ?Hta, <- ?Htb in *; done. }
  destruct i0 as [[|x]|], i1 as [[|y]|]; try done;
    destruct Hodd as [?|[?|[?|?]]]; try done;
    exfalso; by apply Hboth.
Qed.

(** Scenario C, block numbers 10 and 12; signals with and without a
    block number, ordered by their timestamps; equal block numbers; an
    unlocated signal; and a block number against a timestamp only. *)
Lemma compare_contract_witness :
  compare Sample.sig_compare Sample.s1 Sample.s3 = Ok (Int (-2)) ∧
  before (compare Sample.sig_compare) Sample.s1 Sample.s3 ∧
  compare Sample.sig_compare Sample.m3 Sample.m1 = Ok (Int (-100)) ∧
  compare Sample.sig_compare Sample.s1 Sample.s2 =
    Sample.sig_compare Sample.s1 Sample.s2 ∧
  compare Sample.sig_compare (Sample.with_only []) Sample.s1 =
    Throw NotLocated ∧
  compare Sample.sig_compare
    (Sample.with_only [("blockNumber", VNum (Int 5))]) Sample.m3 = Ok NaN.
Proof.
  assert (∀ z, (- 1000 < z < 1000)%Z → safe_integer z) as Hsafe
    by (unfold safe_integer; lia).
  destruct (compare_contract Sample.sig_compare Sample.s1 Sample.s3)
    as (_ & _ & Hbn & _).
  destruct (Hbn 10%Z 12%Z eq_refl eq_refl
              ltac:(apply Hsafe; lia) ltac:(apply Hsafe; lia)
              ltac:(discriminate)) as [Hb Hc].
  destruct (compare_contract Sample.sig_compare Sample.m3 Sample.m1)
    as (_ & _ & _ & Hts & _).
  destruct (Hts 200%Z 300%Z (or_introl eq_refl) eq_refl eq_refl
              ltac:(apply Hsafe; lia) ltac:(apply Hsafe; lia)
              ltac:(discriminate)) as [_ Hc'].
  destruct (compare_contract Sample.sig_compare Sample.s1 Sample.s2)
    as (_ & _ & _ & _ & Heq & _).
  destruct (compare_contract Sample.sig_compare (Sample.with_only [])
              Sample.s1) as (Hun & _).
  destruct (compare_contract Sample.sig_compare
              (Sample.with_only [("blockNumber", VNum (Int 5))]) Sample.m3)
    as (_ & _ & _ & _ & _ & _ & Hnan).
  split; [exact (Hc ltac:(apply Hsafe; lia))|].
  split; [apply Hb; reflexivity|].
  split; [exact (Hc' ltac:(apply Hsafe; lia))|].
  split; [exact (Heq 10%Z eq_refl eq_refl)|].
  split; [exact (Hun eq_refl)|].
  exact (Hnan eq_refl eq_refl None (Some (Int 200)) eq_refl
           (or_introl eq_refl)).
Defined.

(** C6, as stated, is false at two signals with block number 10 and
    timestamps 200 and 100: [compare] does not look at the timestamps; it
    returns what the identity comparator returns, here -1, which puts the
    signal with the later timestamp first. *)
Lemma equal_blockNumber_skips_timestamp :
  located Sample.s1 = true ∧ located Sample.s2 = true ∧
  blockNumber Sample.s1 = Some (Int 10) ∧
  blockNumber Sample.s2 = Some (Int 10) ∧
  timestamp Sample.s1 = Some (Int 200) ∧
  timestamp Sample.s2 = Some (Int 100) ∧
  compare Sample.sig_compare Sample.s1 Sample.s2 = Ok (Int (-1)) ∧
  compare Sample.sig_compare Sample.s1 Sample.s2 ≠
    Ok (minus (timestamp Sample.s1) (timestamp Sample.s2)).
Proof. repeat split; discriminate. Qed.

(** C6, amended: for every two located signals whose [blockNumber] values
    are equal, [compare] does not compare their timestamps: it returns
    the result of the identity comparator of the wrapped message, so its
    result is non-zero exactly when that comparator's is. *)
Theorem equal_blockNumber_delegates
    (super_compare : Signal → Signal → result number) (this that : Signal)
    (n : Z) :
  blockNumber this = Some (Int n) → blockNumber that = Some (Int n) →
  located this = true ∧ located that = true ∧
  compare super_compare this that = super_compare this that ∧
  (∀ z, compare super_compare this that = Ok (Int z) ∧ z ≠ 0%Z ↔
        super_compare this that = Ok (Int z) ∧ z ≠ 0%Z).
Proof.
  intros Ha Hb.
  assert (compare super_compare this that = super_compare this that) as Hc.
  { rewrite (compare_numbered _ _ _ n n) by done.
    by rewrite bool_decide_eq_true_2. }
  split; [by eapply located_numbered|].
  split; [by eapply located_numbered|].
  split; [exact Hc|]. intros z. by rewrite Hc.
Qed.

Lemma equal_blockNumber_delegates_witness :
  compare Sample.sig_compare Sample.s1 Sample.s2 = Ok (Int (-1)).
Proof.
  destruct (equal_blockNumber_delegates Sample.sig_compare
              Sample.s1 Sample.s2 10 eq_refl eq_refl) as (_ & _ & Hc & _).
  rewrite Hc. reflexivity.
Defined.

(** C4, as stated, is false on the three located signals [m1] (block 1,
    time 300), [m2] (block 2, time 100) and [m3] (no block number, time
    200): [m1] sorts before [m2] by block number, [m2] before [m3] and
    [m3] before [m1] by timestamp. *)
Lemma compare_cycle :
  located Sample.m1 = true ∧ located Sample.m2 = true ∧
  located Sample.m3 = true ∧
  before (compare Sample.sig_compare) Sample.m1 Sample.m2 ∧
  before (compare Sample.sig_compare) Sample.m2 Sample.m3 ∧
  before (compare Sample.sig_compare) Sample.m3 Sample.m1 ∧
  ¬ before (compare Sample.sig_compare) Sample.m1 Sample.m3 ∧
  ¬ strict_total_order_on
      (λ s, s = Sample.m1 ∨ s = Sample.m2 ∨ s = Sample.m3)
      (compare Sample.sig_compare).
Proof.
  assert (before (compare Sample.sig_compare) Sample.m1 Sample.m2) as H12
    by (by apply before_iff).
  assert (before (compare Sample.sig_compare) Sample.m2 Sample.m3) as H23
    by (by apply before_iff).
  assert (¬ before (compare Sample.sig_compare) Sample.m1 Sample.m3) as H13
    by (by rewrite before_iff).
  do 3 (split; [reflexivity|]).
  split; [exact H12|]. split; [exact H23|].
  split; [by apply before_iff|]. split; [exact H13|].
  intros (_ & Htrans & _). apply H13.
  apply (Htrans Sample.m1 Sample.m2 Sample.m3); tauto.
Qed.

(** C4, amended: on a set of located signals that [compare] reads by one
    key throughout (every member has an integer [blockNumber], or no
    member has a [blockNumber] and every member has an integer
    [timestamp]) and on which the identity comparator of the wrapped
    message is a strict total order, [compare] is a strict total order:
    antisymmetric, transitive, and without a tie between two distinct
    members. *)
Theorem compare_strict_total_order
    (super_compare : Signal → Signal → result number)
    (members : Signal → Prop) :
  all_numbered members ∨ all_timed members →
  strict_total_order_on members super_compare →
  strict_total_order_on members (compare super_compare).
Proof.
  intros [Hnum|Htime] Hid.
  - apply (keyed_order super_compare
             (λ s k, blockNumber s = Some (Int k)) members);
      [exact Hnum| |exact Hid].
    intros a b x y _ _. apply compare_numbered.
  - apply (keyed_order super_compare
             (λ s k, blockNumber s = None ∧ timestamp s = Some (Int k))
             members); [|
      |exact Hid].
    + intros s Ms. destruct (Htime s Ms) as [Hn [k Hk]]. by exists k.
    + intros a b x y _ _ [Hn Ha] [_ Hb]. apply compare_timed; auto.
Qed.

(** The order of the signatures is a strict total order on the three
    sample signals. *)
Lemma sig_compare_trio :
  strict_total_order_on Sample.trio Sample.sig_compare.
Proof.
  split; [|split].
  - intros a b z [-> | [-> | ->]] [-> | [-> | ->]]; vm_compute;
      intros [= <-]; by eexists.
  - intros a b c [-> | [-> | ->]] [-> | [-> | ->]] [-> | [-> | ->]];
      rewrite !before_iff; vm_compute; congruence.
  - intros a b [-> | [-> | ->]] [-> | [-> | ->]] Hne; try done;
      vm_compute; by eexists.
Qed.

Lemma trio_numbered : all_numbered Sample.trio.
Proof. intros s [-> | [-> | ->]]; by eexists. Qed.

Lemma compare_strict_total_order_witness :
  strict_total_order_on Sample.trio (compare Sample.sig_compare).
Proof.
  apply (compare_strict_total_order Sample.sig_compare Sample.trio).
  - left. exact trio_numbered.
  - exact sig_compare_trio.
Defined.

(** ** The scenarios of the specification *)

Example scenario_A :
  (this ← constructor (mkPayload ∅ ∅)
            (Some (<["sender" := VStr "alice"]> (<["action" := VStr "vote"]>
                  (<["epoch" := VStr "3"]> (<["block" := VStr "0xaa"]> ∅)))));
   Ok (consensus this)) =
  Ok (VStr "alice > vote > 3 > 0xaa").
Proof. reflexivity. Qed.

Example scenario_B :
  constructor (mkPayload {["@" := VStr "bob > move > 1 > 0xff"]} ∅) None =
  Ok (mkSignal {["@" := VStr "bob > move > 1 > 0xff"]} ∅
        (VStr "bob") (VStr "move") (VStr "1") (VStr "0xff")).
Proof. reflexivity. Qed.

Example split_examples :
  split_sep "alice > vote > 3 > 0xaa" = ["alice"; "vote"; "3"; "0xaa"] ∧
  split_sep "a > > b" = ["a"; "> b"] ∧
  split_sep "a >  > b" = ["a"; ""; "b"] ∧
  split_sep "a > " = ["a"; ""] ∧
  split_sep "a>b" = ["a>b"].
Proof. repeat split. Qed.

Example parseInt_examples :
  parseInt (VNum (Int 12)) = Int 12 ∧
  parseInt (VStr "12") = Int 12 ∧
  parseInt (VStr " -7 blocks") = Int (-7) ∧
  parseInt (VStr "0x1f") = Int 31 ∧
  parseInt (VStr "abc") = NaN ∧
  parseInt VNull = NaN.
Proof. repeat split. Qed.

(** * Further properties *)

(** ** The two projections of the parameters *)

Lemma standardParams_lookup this k :
  standardParams this !! k =
    if decide (standard k) then Some (get (_params_ this) k) else None.
Proof.
  unfold standardParams, standard.
  destruct (decide (k = "sig")) as [->|?]; [done|].
  destruct (decide (k = "alias")) as [->|?]; [done|].
  destruct (decide (k = "world")) as [->|?]; [done|].
  destruct (decide (k = "timestamp")) as [->|?]; [done|].
  destruct (decide (k = "blockNumber")) as [->|?]; [done|].
  rewrite !lookup_insert_ne, lookup_empty by done.
  case_decide as Hs; [|done]. exfalso. revert Hs.
  rewrite !elem_of_cons, elem_of_nil. tauto.
Qed.

Lemma get_standardParams this k :
  standard k → get (standardParams this) k = get (_params_ this) k.
Proof.
  intros Hs. unfold get at 1. rewrite standardParams_lookup.
  by rewrite decide_True.
Qed.

(** The getters [standardParams] and [customParams] split the parameters:
    a stored entry is found in [customParams] exactly when its key is not
    one of the five reserved names, with the stored value; [standardParams]
    has the five reserved keys whatever is stored, each with the stored
    value or [undefined]. *)
Theorem params_partition this k :
  (∀ v, customParams this !! k = Some v ↔
        _params_ this !! k = Some v ∧ ¬ standard k) ∧
  (standard k → standardParams this !! k = Some (get (_params_ this) k)) ∧
  (¬ standard k → standardParams this !! k = None) ∧
  (∀ v, _params_ this !! k = Some v →
        standardParams this !! k = Some v ∧ customParams this !! k = None ∨
        standardParams this !! k = None ∧ customParams this !! k = Some v).
Proof.
  rewrite standardParams_lookup, customParams_lookup.
  destruct (decide (standard k)) as [Hs|Hs].
  - split; [intros v; split; [done|tauto]|].
    split; [done|]. split; [tauto|].
    intros v Hv. left. by rewrite (get_lookup _ _ _ Hv).
  - split; [intros v; tauto|].
    split; [tauto|]. split; [done|]. intros v Hv. by right.
Qed.

Lemma params_partition_witness :
  customParams (Sample.with_only [("world", VStr "w"); ("note", VStr "x")])
    !! "note" = Some (VStr "x").
Proof.
  destruct (params_partition
              (Sample.with_only [("world", VStr "w"); ("note", VStr "x")])
              "note") as (_ & _ & _ & H).
  destruct (H (VStr "x") eq_refl) as [[Hs _]|[_ Hc]]; [|exact Hc].
  discriminate Hs.
Defined.

(** ** Serialization *)

Lemma standard_world : standard "world".
Proof. unfold standard. rewrite !elem_of_cons. tauto. Qed.

Lemma standard_timestamp : standard "timestamp".
Proof. unfold standard. rewrite !elem_of_cons. tauto. Qed.

Lemma standard_blockNumber : standard "blockNumber".
Proof. unfold standard. rewrite !elem_of_cons. tauto. Qed.

Lemma not_standard_dropped : ¬ standard "dropped".
Proof.
  unfold standard. rewrite !elem_of_cons, elem_of_nil.
  intuition discriminate.
Qed.

(** A signal rebuilt from its own [payload] has the same signed fields,
    world, block number, timestamp and location status, its claim fields
    are the segments of the consensus string, and every custom parameter
    is gone, [dropped] among them. *)
Theorem payload_rebuild this c :
  consensus this = VStr c → c ≠ "" →
  ∃ this',
    constructor (payload this) None = Ok this' ∧
    _signed_ this' = _signed_ this ∧
    sender this' = at_index (split_sep c) 0 ∧
    action this' = at_index (split_sep c) 1 ∧
    epoch this' = at_index (split_sep c) 2 ∧
    block this' = at_index (split_sep c) 3 ∧
    world this' = world this ∧
    blockNumber this' = blockNumber this ∧
    timestamp this' = timestamp this ∧
    located this' = located this ∧
    customParams this' = ∅ ∧
    dropped this' = None.
Proof.
  intros Hc Hne. unfold payload.
  set (this' := with_claim (at_index (split_sep c) 0)
                  (at_index (split_sep c) 1) (at_index (split_sep c) 2)
                  (at_index (split_sep c) 3)
                  (super_new (mkPayload (_signed_ this)
                                (standardParams this)))).
  assert (_params_ this' = standardParams this) as Hp by reflexivity.
  exists this'. split; [by apply constructor_parses|].
  do 5 (split; [reflexivity|]).
  unfold located, world, blockNumber, timestamp, dropped.
  rewrite Hp.
  rewrite (get_standardParams _ _ standard_world).
  rewrite (get_standardParams _ _ standard_timestamp).
  rewrite (get_standardParams _ _ standard_blockNumber).
  do 4 (split; [reflexivity|]).
  split.
  - apply map_eq. intros k. rewrite customParams_lookup, lookup_empty.
    rewrite Hp, standardParams_lookup.
    by destruct (decide (standard k)).
  - unfold get. rewrite standardParams_lookup.
    by rewrite (decide_False (P := standard "dropped"))
      by exact not_standard_dropped.
Qed.

Lemma payload_rebuild_witness :
  ∃ this',
    constructor
      (payload (mkSignal {["@" := VStr "bob > move > 1 > 0xff"]}
                  (<["dropped" := VNum (Int 4)]>
                   {["blockNumber" := VNum (Int 10)]})
                  (VStr "bob") (VStr "move") (VStr "1") (VStr "0xff")))
      None = Ok this' ∧
    sender this' = VStr "bob" ∧
    blockNumber this' = Some (Int 10) ∧
    dropped this' = None.
Proof.
  destruct (payload_rebuild
              (mkSignal {["@" := VStr "bob > move > 1 > 0xff"]}
                 (<["dropped" := VNum (Int 4)]>
                  {["blockNumber" := VNum (Int 10)]})
                 (VStr "bob") (VStr "move") (VStr "1") (VStr "0xff"))
              "bob > move > 1 > 0xff" ltac:(by vm_compute)
              ltac:(discriminate))
    as (this' & Hc & _ & Hs & _ & _ & _ & _ & Hb & _ & _ & _ & Hd).
  exists this'. split; [exact Hc|]. split; [exact Hs|].
  split; [rewrite Hb; reflexivity|exact Hd].
Defined.

(** ** Clearing and resolving the location *)

Lemma clearLocation_eq this :
  clearLocation this =
    with_params (delete "timestamp" (delete "blockNumber" (_params_ this)))
      this.
Proof.
  trans (with_params (_params_ (clearLocation this)) this);
    [reflexivity|].
  by rewrite clearLocation_params.
Qed.

Lemma delete_location_twice (m : obj) :
  delete "timestamp" (delete "blockNumber"
    (delete "timestamp" (delete "blockNumber" m))) =
  delete "timestamp" (delete "blockNumber" m).
Proof.
  apply map_eq. intros k. rewrite !lookup_delete.
  by repeat case_decide.
Qed.

Lemma clearLocation_twice this :
  clearLocation (clearLocation this) = clearLocation this.
Proof.
  rewrite (clearLocation_eq (clearLocation this)), clearLocation_params.
  rewrite delete_location_twice, (clearLocation_eq this). reflexivity.
Qed.

(** [clearLocation] twice is [clearLocation] once; it leaves the custom
    parameters, the world and everything outside the parameters as they
    are, and does nothing to a signal that stores neither key. *)
Theorem clearLocation_idempotent this :
  clearLocation (clearLocation this) = clearLocation this ∧
  customParams (clearLocation this) = customParams this ∧
  world (clearLocation this) = world this ∧
  consensus (clearLocation this) = consensus this ∧
  (_params_ this !! "timestamp" = None →
   _params_ this !! "blockNumber" = None →
   clearLocation this = this).
Proof.
  split; [|split; [|split; [|split]]].
  - apply clearLocation_twice.
  - apply map_eq. intros k. rewrite !customParams_lookup.
    case_decide as Hs; [done|]. rewrite clearLocation_params.
    rewrite !lookup_delete_ne; [done| |]; intros <-; apply Hs.
    + exact standard_blockNumber.
    + exact standard_timestamp.
  - unfold world, get. rewrite clearLocation_params.
    by rewrite !lookup_delete_ne.
  - reflexivity.
  - intros Ht Hb. rewrite clearLocation_eq.
    rewrite (delete_id (delete _ _)) by by rewrite lookup_delete_ne.
    rewrite delete_id by done. apply with_params_same.
Qed.

Lemma clearLocation_idempotent_witness :
  clearLocation (Sample.with_only [("note", VStr "x")]) =
    Sample.with_only [("note", VStr "x")].
Proof.
  destruct (clearLocation_idempotent (Sample.with_only [("note", VStr "x")]))
    as (_ & _ & _ & _ & H).
  apply H; reflexivity.
Defined.

Lemma addParams_twice partial this :
  addParams partial (addParams partial this) = addParams partial this.
Proof.
  unfold addParams, with_params. cbn. f_equal.
  apply map_eq. intros k. rewrite !lookup_union.
  by destruct (partial !! k), (_params_ this !! k).
Qed.

Lemma clearLocation_addParams number_value timestamp_value this :
  clearLocation
    (addParams (<["blockNumber" := number_value]>
                (<["timestamp" := timestamp_value]> ∅)) this) =
  clearLocation this.
Proof.
  rewrite !clearLocation_eq. unfold addParams, with_params. cbn. f_equal.
  apply map_eq. intros k. rewrite !lookup_delete.
  repeat case_decide; try done.
  rewrite lookup_union, !lookup_insert_ne, lookup_empty by done.
  by destruct (_params_ this !! k).
Qed.

Lemma located_iff this :
  located this = true ↔
  get (_params_ this) "timestamp" ≠ VUndef ∨
  get (_params_ this) "blockNumber" ≠ VUndef.
Proof.
  unfold located, timestamp, blockNumber.
  rewrite <- !typeof_defined.
  destruct (String.eqb (typeof (get (_params_ this) "timestamp")) _),
    (String.eqb (typeof (get (_params_ this) "blockNumber")) _);
    cbn; intuition congruence.
Qed.

Section Relocate.

Variable run : option Earth → Signal → result (located_as * Signal).
Variable lookup : Earth → value → result (option obj).
Variable number : string.

Hypothesis run_steps : ∀ earth this,
  run earth this =
    match earth with
    | None => Throw MissingCollaborator
    | Some earth =>
        if String.eqb (typeof (block this)) "undefined"
        then Throw MissingAnchor
        else
          info ← lookup earth (block this);
          match info with
          | Some info =>
              let params : obj :=
                <["blockNumber" := get info number]>
                (<["timestamp" := get info "timestamp"]> ∅) in
              Ok (ReturnParams params, addParams params this)
          | None => Ok (ReturnThis, clearLocation this)
          end
    end.

Lemma run_twice earth this r this' :
  run earth this = Ok (r, this') → run earth this' = Ok (r, this').
Proof.
  rewrite !run_steps. destruct earth as [earth|]; [|done].
  destruct (String.eqb (typeof (block this)) "undefined") eqn:Hb; [done|].
  destruct (lookup earth (block this)) as [[info|]|e] eqn:Hl;
    cbn [mbind result_bind]; [| |done].
  - intros [= <- <-]. cbn [block addParams with_params].
    rewrite Hb, Hl. cbn [mbind result_bind]. by rewrite addParams_twice.
  - intros [= <- <-].
    assert (block (clearLocation this) = block this) as -> by reflexivity.
    rewrite Hb, Hl. cbn [mbind result_bind].
    by rewrite clearLocation_twice.
Qed.

Lemma run_answer earth this info :
  block this ≠ VUndef → lookup earth (block this) = Ok (Some info) →
  ∃ r this',
    run (Some earth) this = Ok (r, this') ∧
    get (_params_ this') "blockNumber" = get info number ∧
    get (_params_ this') "timestamp" = get info "timestamp" ∧
    (located this' = true ↔
     get info "timestamp" ≠ VUndef ∨ get info number ≠ VUndef).
Proof.
  intros Hb Hl. apply typeof_defined in Hb.
  rewrite run_steps, Hb, Hl. cbn [mbind result_bind].
  eexists _, _. split; [reflexivity|].
  assert (∀ p, get (_params_ (addParams
            (<["blockNumber" := get info number]>
             (<["timestamp" := get info "timestamp"]> ∅)) p)) "blockNumber"
          = get info number) as Hn.
  { intros p. apply get_lookup. rewrite addParams_lookup.
    by rewrite lookup_insert_eq. }
  assert (∀ p, get (_params_ (addParams
            (<["blockNumber" := get info number]>
             (<["timestamp" := get info "timestamp"]> ∅)) p)) "timestamp"
          = get info "timestamp") as Ht.
  { intros p. apply get_lookup. rewrite addParams_lookup.
    by rewrite lookup_insert_ne, lookup_insert_eq. }
  split; [apply Hn|]. split; [apply Ht|].
  by rewrite located_iff, Hn, Ht.
Qed.

Lemma run_erases e1 e2 this params this1 this2 :
  run (Some e1) this = Ok (ReturnParams params, this1) →
  run (Some e2) this1 = Ok (ReturnThis, this2) →
  this2 = clearLocation this.
Proof.
  rewrite !run_steps.
  destruct (String.eqb (typeof (block this)) "undefined"); [done|].
  destruct (lookup e1 (block this)) as [[info|]|e]; cbn [mbind result_bind];
    [|done|done].
  intros [= <- <-].
  destruct (String.eqb _ _); [done|].
  destruct (lookup e2 _) as [[info2|]|e]; cbn [mbind result_bind];
    [done| |done].
  intros [= <-]. apply clearLocation_addParams.
Qed.

End Relocate.

(** Resolving the location again with the same Earth changes nothing: a
    second [locate] (or [locateSync]) returns what the first returned and
    leaves the signal as the first left it. *)
Theorem locate_again earth confirm this r this' :
  (locate earth this = Ok (r, this') → locate earth this' = Ok (r, this')) ∧
  (locateSync earth confirm this = Ok (r, this') →
   locateSync earth confirm this' = Ok (r, this')).
Proof.
  split.
  - apply (run_twice locate getBlock "blockNumber"). by intros [e|] s.
  - apply (run_twice (λ e, locateSync e confirm)
             (λ e hash, readHash e hash confirm) "number").
    by intros [e|] s.
Qed.

Lemma locate_again_witness :
  ∃ r this',
    locate (Some Sample.earth)
      (mkSignal ∅ ∅ (VStr "alice") (VStr "vote") (VStr "3") (VStr "0xaa")) =
      Ok (r, this') ∧
    locate (Some Sample.earth) this' = Ok (r, this').
Proof.
  eexists _, _. split; [by vm_compute|].
  apply (locate_again (Some Sample.earth) VUndef
           (mkSignal ∅ ∅ (VStr "alice") (VStr "vote") (VStr "3")
              (VStr "0xaa"))).
  by vm_compute.
Defined.

(** After a lookup that answers, the stored block number and timestamp
    are those of the answer, whatever was stored before, and the signal
    is located exactly when the answer carries a defined timestamp or a
    defined block number ([blockNumber] for [locate], [number] for
    [locateSync]): an answer with neither leaves the signal unlocated. *)
Theorem locate_takes_answer earth confirm this info :
  block this ≠ VUndef →
  (getBlock earth (block this) = Ok (Some info) →
   ∃ r this',
     locate (Some earth) this = Ok (r, this') ∧
     get (_params_ this') "blockNumber" = get info "blockNumber" ∧
     get (_params_ this') "timestamp" = get info "timestamp" ∧
     (located this' = true ↔
      get info "timestamp" ≠ VUndef ∨ get info "blockNumber" ≠ VUndef)) ∧
  (readHash earth (block this) confirm = Ok (Some info) →
   ∃ r this',
     locateSync (Some earth) confirm this = Ok (r, this') ∧
     get (_params_ this') "blockNumber" = get info "number" ∧
     get (_params_ this') "timestamp" = get info "timestamp" ∧
     (located this' = true ↔
      get info "timestamp" ≠ VUndef ∨ get info "number" ≠ VUndef)).
Proof.
  intros Hb. split; intros Hl.
  - apply (run_answer locate getBlock "blockNumber"); [|done|done].
    by intros [e|] s.
  - apply (run_answer (λ e, locateSync e confirm)
             (λ e hash, readHash e hash confirm) "number"); [|done|done].
    by intros [e|] s.
Qed.

(** A chain whose answer names the height [number], as the clock does:
    [locate] reads [blockNumber] and stores [undefined]. *)
Lemma locate_takes_answer_witness :
  ∃ r this',
    locate
      (Some (mkEarth
               (λ _, Ok (Some (<["number" := VNum (Int 10)]> ∅)))
               (λ _ _, Ok None)))
      (with_claim (VStr "alice") (VStr "vote") (VStr "3") (VStr "0xaa")
         (Sample.with_only [("blockNumber", VNum (Int 7))])) =
      Ok (r, this') ∧
    located this' = false.
Proof.
  destruct (locate_takes_answer
              (mkEarth (λ _, Ok (Some (<["number" := VNum (Int 10)]> ∅)))
                       (λ _ _, Ok None))
              VUndef
              (with_claim (VStr "alice") (VStr "vote") (VStr "3")
                 (VStr "0xaa")
                 (Sample.with_only [("blockNumber", VNum (Int 7))]))
              (<["number" := VNum (Int 10)]> ∅)
              ltac:(discriminate)) as [H _].
  destruct (H eq_refl) as (r & this' & Hrun & _ & _ & Hloc).
  exists r, this'. split; [exact Hrun|].
  destruct (located this'); [|done].
  destruct (proj1 Hloc eq_refl) as [Hd|Hd]; by destruct Hd.
Defined.

(** A lookup without data after one that answered leaves the signal as
    [clearLocation] would have left it at the start: the location the
    first lookup stored is gone, and so is any stored before it. *)
Theorem locate_then_lose e1 e2 confirm this params this1 this2 :
  (locate (Some e1) this = Ok (ReturnParams params, this1) →
   locate (Some e2) this1 = Ok (ReturnThis, this2) →
   this2 = clearLocation this) ∧
  (locateSync (Some e1) confirm this = Ok (ReturnParams params, this1) →
   locateSync (Some e2) confirm this1 = Ok (ReturnThis, this2) →
   this2 = clearLocation this).
Proof.
  split.
  - apply (run_erases locate getBlock "blockNumber"). by intros [e|] s.
  - apply (run_erases (λ e, locateSync e confirm)
             (λ e hash, readHash e hash confirm) "number").
    by intros [e|] s.
Qed.

Lemma locate_then_lose_witness :
  let this :=
    mkSignal ∅ {["note" := VStr "x"]}
      (VStr "alice") (VStr "vote") (VStr "3") (VStr "0xaa") in
  let gone := mkEarth (λ _, Ok None) (λ _ _, Ok None) in
  ∃ params this1 this2,
    locate (Some Sample.earth) this = Ok (ReturnParams params, this1) ∧
    locate (Some gone) this1 = Ok (ReturnThis, this2) ∧
    this2 = clearLocation this.
Proof.
  intros this gone. eexists _, _, _.
  split; [by vm_compute|]. split; [by vm_compute|].
  eapply (locate_then_lose Sample.earth gone VUndef this); by vm_compute.
Defined.

(** ** Construction from a claim *)

Lemma set_coord_undefined sp coord this :
  get sp coord = VUndef → set_coord sp coord this = Ok this.
Proof. unfold set_coord. by intros ->. Qed.

Lemma set_coord_defined sp coord this :
  get sp coord ≠ VUndef →
  set_coord sp coord this =
    Ok (with_params (<[coord := get sp coord]> (_params_ this)) this).
Proof.
  intros H. apply typeof_defined in H. unfold set_coord. by rewrite H.
Qed.

Lemma coord_loop_lookup sp (coords : list string) this :
  ∃ params,
    for_of coords (set_coord sp) this = Ok (with_params params this) ∧
    ∀ k, params !! k =
           if decide (k ∈ coords ∧ get sp k ≠ VUndef)
           then Some (get sp k)
           else _params_ this !! k.
Proof.
  revert this. induction coords as [|coord coords IH]; intros this.
  - exists (_params_ this). split; [by rewrite with_params_same|].
    intros k. case_decide as H; [|done]. destruct H as [H _].
    by apply elem_of_nil in H.
  - cbn [for_of].
    destruct (decide (get sp coord = VUndef)) as [Hc|Hc].
    + rewrite (set_coord_undefined _ _ _ Hc). cbn [mbind result_bind].
      destruct (IH this) as (params & -> & Hk).
      exists params. split; [done|]. intros k. rewrite Hk.
      pose proof (elem_of_cons coords k coord) as Hcons.
      repeat case_decide; try done; exfalso;
        intuition (subst; congruence).
    + rewrite (set_coord_defined _ _ _ Hc). cbn [mbind result_bind].
      destruct (IH (with_params (<[coord:=get sp coord]> (_params_ this))
                      this)) as (params & -> & Hk).
      exists params. split; [done|]. intros k. rewrite Hk.
      cbn [_params_ with_params].
      pose proof (elem_of_cons coords k coord) as Hcons.
      destruct (decide (k = coord)) as [->|Hne].
      * rewrite lookup_insert_eq.
        repeat case_decide; try done; exfalso; intuition congruence.
      * rewrite lookup_insert_ne by done.
        repeat case_decide; try done; exfalso; intuition congruence.
Qed.

(** Construction from a claim takes over the payload's parameters and
    signed fields and changes them in two places only.  Of the claim's
    keys it copies [blockNumber], [timestamp] and [world] into the
    parameters, each only when its value is defined; any other key of the
    claim is ignored.  It writes the composed consensus string under ['@'],
    over whatever the payload had there. *)
Theorem constructor_copies_coordinates payload sp :
  ∃ this,
    constructor payload (Some sp) = Ok this ∧
    (∀ k, _params_ this !! k =
            if decide (coordinate k ∧ get sp k ≠ VUndef)
            then Some (get sp k)
            else payload_params payload !! k) ∧
    (∀ k, _signed_ this !! k =
            if decide (k = "@")
            then Some (VStr (compose (get sp "sender") (get sp "action")
                                     (get sp "epoch") (get sp "block")))
            else payload_signed payload !! k).
Proof.
  unfold constructor. rewrite required_loop_passes. cbn [mbind result_bind].
  match goal with
  | |- context [for_of ?cs (set_coord sp) ?s] =>
      destruct (coord_loop_lookup sp cs s) as (params & -> & Hk)
  end.
  cbn [mbind result_bind]. eexists. split; [reflexivity|].
  cbn [_params_ _signed_ with_signed with_params with_claim super_new
       sender action epoch block]. split.
  - intros k. rewrite Hk. reflexivity.
  - intros k. case_decide as Hk'.
    + subst k. by rewrite lookup_insert_eq.
    + by rewrite lookup_insert_ne.
Qed.

(** ** Construction without a consensus string *)

(** When no claim is given and the payload has no consensus string (the
    key ['@'] is absent, or holds the empty string), construction returns
    a signal whose four claim fields are [undefined]; such a signal
    cannot be verified (missing-sender error) nor located (missing-anchor
    error), whatever the collaborators. *)
Theorem constructor_without_consensus
    (super_verify : option Earth → list DomainField → Signal → result Signal)
    (authorAlias : Signal → value)
    (earth : Earth) (payload : Payload) :
  get (payload_signed payload) "@" = VUndef ∨
  get (payload_signed payload) "@" = VStr "" →
  ∃ this,
    constructor payload None = Ok this ∧
    sender this = VUndef ∧ action this = VUndef ∧
    epoch this = VUndef ∧ block this = VUndef ∧
    _params_ this = payload_params payload ∧
    verify super_verify authorAlias (Some earth) this = Throw MissingSender ∧
    locate (Some earth) this = Throw MissingAnchor.
Proof.
  intros Hc. exists (super_new payload). split.
  - unfold constructor, consensus. cbn [super_new _signed_].
    by destruct Hc as [-> | ->].
  - by repeat split.
Qed.

Lemma constructor_without_consensus_witness :
  ∃ this,
    constructor (mkPayload ∅ {["world" := VStr "w"]}) None = Ok this ∧
    verify Sample.accept Sample.alias (Some Sample.earth) this =
      Throw MissingSender.
Proof.
  destruct (constructor_without_consensus Sample.accept Sample.alias
              Sample.earth (mkPayload ∅ {["world" := VStr "w"]})
              ltac:(left; by vm_compute))
    as (this & Hc & _ & _ & _ & _ & _ & Hv & _).
  by exists this.
Defined.

(** A consensus value that is not a string but is truthy (a non-zero
    number, [true]) makes construction throw a [TypeError]: it has no
    [split]. *)
Theorem constructor_consensus_not_a_string payload v :
  get (payload_signed payload) "@" = v →
  truthy v = true → (∀ c, v ≠ VStr c) →
  constructor payload None = Throw (TypeError "this.consensus.split").
Proof.
  intros Hc Ht Hs. unfold constructor, consensus. cbn [super_new _signed_].
  rewrite Hc, Ht. destruct v; try done. by destruct (Hs s).
Qed.

Lemma constructor_consensus_not_a_string_witness :
  constructor (mkPayload {["@" := VNum (Int 7)]} ∅) None =
    Throw (TypeError "this.consensus.split").
Proof.
  apply (constructor_consensus_not_a_string
           (mkPayload {["@" := VNum (Int 7)]} ∅) (VNum (Int 7))); try done.
Defined.

(** ** Comparison of any two located signals *)

Lemma same_swap i0 i1 : same i0 i1 = same i1 i0.
Proof.
  destruct i0 as [[|x]|], i1 as [[|y]|]; try done. cbn. apply Z.eqb_sym.
Qed.

Lemma minus_swap i0 i1 : minus i1 i0 = negate (minus i0 i1).
Proof.
  destruct i0 as [[|x]|], i1 as [[|y]|]; try done. cbn. f_equal. lia.
Qed.

(** Swapping the arguments of [compare] negates the result, for any two
    signals, also when one is read by block number and the other has
    none, provided the inherited comparator does the same on this pair. *)
Theorem compare_swap
    (super_compare : Signal → Signal → result number) (this that : Signal) :
  (∀ n, super_compare this that = Ok n →
        super_compare that this = Ok (negate n)) →
  ∀ n, compare super_compare this that = Ok n →
       compare super_compare that this = Ok (negate n).
Proof.
  intros Hsuper.
  - intros n. unfold compare.
    rewrite (andb_comm (located that)).
    destruct (located this && located that); cbn [negb]; [|done].
    rewrite (orb_comm (negb (defined (blockNumber that)))).
    destruct (negb (defined (blockNumber this)) ||
              negb (defined (blockNumber that))).
    + rewrite (same_swap (timestamp that)).
      destruct (same (timestamp this) (timestamp that)); [apply Hsuper|].
      intros [= <-]. by rewrite minus_swap.
    + rewrite (same_swap (blockNumber that)).
      destruct (same (blockNumber this) (blockNumber that)); [apply Hsuper|].
      intros [= <-]. by rewrite minus_swap.
Qed.

(** A signal with a block number against one located by timestamp only:
    both are read by timestamp. *)
Lemma compare_swap_witness :
  compare Sample.sig_compare Sample.m1 Sample.m3 = Ok (Int 100) ∧
  compare Sample.sig_compare Sample.m3 Sample.m1 = Ok (Int (-100)).
Proof.
  assert (compare Sample.sig_compare Sample.m1 Sample.m3 = Ok (Int 100))
    as Hc by by vm_compute.
  split; [exact Hc|].
  refine (compare_swap Sample.sig_compare Sample.m1 Sample.m3 _ (Int 100) Hc).
  intros n. vm_compute. by intros [= <-].
Defined.

(** [compare] answers [NaN], without throwing and without asking the
    inherited comparator, when a block number it reads does not parse
    (the signal is still located), even when a signal is compared with
    itself; and also when one signal has only a block number and the
    other only a timestamp. *)
Theorem compare_not_a_number
    (super_compare : Signal → Signal → result number) (this that : Signal) :
  (blockNumber this = Some NaN → defined (blockNumber that) = true →
   located this = true ∧
   compare super_compare this that = Ok NaN ∧
   compare super_compare that this = Ok NaN ∧
   compare super_compare this this = Ok NaN) ∧
  (timestamp this = None → blockNumber that = None →
   located this = true → located that = true →
   compare super_compare this that = Ok NaN ∧
   compare super_compare that this = Ok NaN).
Proof.
  split.
  - intros Hn Hd.
    destruct (blockNumber that) as [m|] eqn:Hm; [|done].
    assert (located this = true) as Ha by by eapply located_numbered.
    assert (located that = true) as Hb by by eapply located_numbered.
    split; [done|].
    rewrite !compare_located by done. rewrite Hn, Hm. cbn.
    by destruct m.
  - intros Ht Hb Ha Hb'.
    rewrite !compare_located by done. rewrite Ht, Hb.
    rewrite andb_false_r. cbn.
    unfold located in Hb'. rewrite Hb in Hb'.
    destruct (timestamp that) as [[|y]|]; try done.
Qed.

Lemma compare_not_a_number_witness :
  let odd := Sample.with_only [("blockNumber", VStr "latest")] in
  located odd = true ∧
  compare Sample.sig_compare odd odd = Ok NaN ∧
  compare Sample.sig_compare Sample.s1 odd = Ok NaN.
Proof.
  intros odd.
  destruct (compare_not_a_number Sample.sig_compare odd Sample.s1)
    as [H _].
  destruct (H ltac:(by vm_compute) ltac:(by vm_compute))
    as (Hl & _ & Hs & Ho).
  by repeat split.
Defined.

(** ** Numeric parameters *)

Lemma digit_of_pretty_char d :
  (d < 10)%N → digit_of 10 (pretty_N_char d) = Some (Z.of_N d).
Proof.
  intros Hd.
  assert (d = 0 ∨ d = 1 ∨ d = 2 ∨ d = 3 ∨ d = 4 ∨ d = 5 ∨ d = 6 ∨ d = 7
          ∨ d = 8 ∨ d = 9)%N as Hcases by lia.
  repeat (destruct Hcases as [->|Hcases]; [reflexivity|]).
  by subst.
Qed.

(** Reading the digits of [x] multiplies what was read before by a power
    of ten and adds [x]. *)
Lemma digits_pretty_go x :
  (0 < x)%N →
  ∃ k, ∀ acc s,
    digits 10 acc (pretty_N_go x s) =
      digits 10 (Some (default 0 acc * k + Z.of_N x)%Z) s.
Proof.
  induction (N.lt_wf_0 x) as [x _ IH]. intros Hx.
  assert (x `mod` 10 < 10)%N as Hmod by (apply N.mod_lt; lia).
  pose proof (N.div_mod x 10 ltac:(lia)) as Hdm.
  destruct (decide (x `div` 10 = 0)%N) as [Hz|Hz].
  - exists 10%Z. intros acc s.
    rewrite pretty_N_go_step, Hz, pretty_N_go_0 by done.
    cbn [digits]. rewrite digit_of_pretty_char by done.
    generalize (default 0%Z acc). intros a.
    assert (x `mod` 10 = x)%N as Hsame by (rewrite Hz in Hdm; lia).
    by rewrite Hsame.
  - destruct (IH (x `div` 10)%N) as [k Hk].
    + apply N.div_lt; lia.
    + lia.
    + exists (k * 10)%Z. intros acc s.
      rewrite pretty_N_go_step, Hk by done.
      cbn [digits]. rewrite digit_of_pretty_char by done.
      cbn [default]. generalize (default 0%Z acc). intros a.
      apply (f_equal (λ v, digits 10 (Some v) s)). unfold id. lia.
Qed.

Lemma is_digit_pretty_char d : (d < 10)%N → is_digit (pretty_N_char d) = true.
Proof. intros Hd. unfold is_digit. by rewrite digit_of_pretty_char. Qed.

Lemma all_digits_pretty_go x s :
  all_digits s = true → all_digits (pretty_N_go x s) = true.
Proof.
  revert s. induction (N.lt_wf_0 x) as [x _ IH]. intros s Hs.
  destruct (decide (x = 0)%N) as [->|Hx]; [by rewrite pretty_N_go_0|].
  rewrite pretty_N_go_step by lia. apply IH.
  - apply N.div_lt; lia.
  - cbn [all_digits]. rewrite Hs, is_digit_pretty_char; [done|].
    apply N.mod_lt. lia.
Qed.

Lemma pretty_go_nonempty x s :
  (0 < x)%N → ∃ c t, pretty_N_go x s = String c t.
Proof.
  revert s. induction (N.lt_wf_0 x) as [x _ IH]. intros s Hx.
  rewrite pretty_N_go_step by done.
  destruct (decide (x `div` 10 = 0)%N) as [->|Hz].
  - rewrite pretty_N_go_0. eauto.
  - apply IH.
    + apply N.div_lt; lia.
    + by apply N.neq_0_lt_0.
Qed.

(** On a non-empty string of digits [parseInt] skips nothing, finds no
    sign and no [0x], and reads the digits in radix 10. *)
Lemma parseInt_string_digits c t :
  all_digits (String c t) = true →
  parseInt_string (String c t) =
    match digits 10 None (String c t) with
    | Some m => Int m
    | None => NaN
    end.
Proof.
  cbn [all_digits]. intros [Hc Ht]%andb_true_iff.
  assert (∀ o : option Z,
            match o with Some m => Int (1 * m) | None => NaN end =
            match o with Some m => Int m | None => NaN end) as Hone.
  { intros [m|]; [|done]. f_equal. lia. }
  destruct c as [[] [] [] [] [] [] [] []]; try discriminate Hc;
    try apply Hone.
  destruct t as [|c' t]; [reflexivity|].
  cbn [all_digits] in Ht. apply andb_true_iff in Ht as [Hc' Ht].
  destruct c' as [[] [] [] [] [] [] [] []]; try discriminate Hc';
    apply Hone.
Qed.

Lemma parse_magnitude_digits c t :
  all_digits (String c t) = true →
  parse_magnitude (String c t) = digits 10 None (String c t).
Proof.
  cbn [all_digits]. intros [Hc Ht]%andb_true_iff.
  destruct c as [[] [] [] [] [] [] [] []]; try discriminate Hc;
    try reflexivity.
  destruct t as [|c' t]; [reflexivity|].
  cbn [all_digits] in Ht. apply andb_true_iff in Ht as [Hc' Ht].
  destruct c' as [[] [] [] [] [] [] [] []]; try discriminate Hc';
    reflexivity.
Qed.

Lemma digits_pretty x :
  (0 < x)%N → digits 10 None (pretty_N_go x "") = Some (Z.of_N x).
Proof.
  intros Hx. destruct (digits_pretty_go x Hx) as [k Hk].
  rewrite Hk. cbn. f_equal.
Qed.

Lemma parseInt_string_pretty z : parseInt_string (pretty z) = Int z.
Proof.
  destruct z as [|p|p]; [reflexivity| |].
  - unfold pretty, pretty_Z, pretty, pretty_positive, pretty, pretty_N.
    rewrite decide_False by done.
    destruct (pretty_go_nonempty (N.pos p) "" ltac:(lia)) as (c & t & Hs).
    pose proof (all_digits_pretty_go (N.pos p) "" eq_refl) as Hd.
    pose proof (digits_pretty (N.pos p) ltac:(lia)) as Hv.
    rewrite Hs in *. rewrite parseInt_string_digits, Hv by done.
    reflexivity.
  - unfold pretty, pretty_Z, pretty, pretty_positive, pretty, pretty_N.
    rewrite decide_False by done.
    destruct (pretty_go_nonempty (N.pos p) "" ltac:(lia)) as (c & t & Hs).
    pose proof (all_digits_pretty_go (N.pos p) "" eq_refl) as Hd.
    pose proof (digits_pretty (N.pos p) ltac:(lia)) as Hv.
    rewrite Hs in *.
    change (parseInt_string ("-" +:+ String c t))
      with (match parse_magnitude (String c t) with
            | Some m => Int (-1 * m)
            | None => NaN
            end).
    rewrite parse_magnitude_digits, Hv by done. reflexivity.
Qed.

(** The numeric getters give the integer that is stored, whether it is
    stored as a number or as its decimal text: for a safe integer [z],
    [blockNumber], [timestamp] and [dropped] are [z] when the parameter
    holds the number [z] or the string of its decimal digits. *)
Theorem numeric_getters_normalize this z :
  safe_integer z →
  (get (_params_ this) "blockNumber" = VNum (Int z) ∨
   get (_params_ this) "blockNumber" = VStr (to_string (VNum (Int z))) →
   blockNumber this = Some (Int z)) ∧
  (get (_params_ this) "timestamp" = VNum (Int z) ∨
   get (_params_ this) "timestamp" = VStr (to_string (VNum (Int z))) →
   timestamp this = Some (Int z) ∧ located this = true) ∧
  (get (_params_ this) "dropped" = VNum (Int z) ∨
   get (_params_ this) "dropped" = VStr (to_string (VNum (Int z))) →
   dropped this = Some (Int z)).
Proof.
  intros _.
  assert (∀ v, v = VNum (Int z) ∨ v = VStr (to_string (VNum (Int z))) →
               (if String.eqb (typeof v) "undefined" then None
                else Some (parseInt v)) = Some (Int z)) as Hread.
  { intros v [-> | ->]; cbn [typeof String.eqb]; f_equal;
      apply parseInt_string_pretty. }
  split; [|split].
  - apply Hread.
  - intros H. assert (timestamp this = Some (Int z)) as Ht by by apply Hread.
    split; [exact Ht|]. unfold located. by rewrite Ht.
  - apply Hread.
Qed.

Lemma numeric_getters_normalize_witness :
  blockNumber (Sample.with_only [("blockNumber", VStr "12")]) =
    Some (Int 12) ∧
  blockNumber (Sample.with_only [("blockNumber", VNum (Int 12))]) =
    Some (Int 12).
Proof.
  split.
  - destruct (numeric_getters_normalize
                (Sample.with_only [("blockNumber", VStr "12")]) 12)
      as [H _]; [unfold safe_integer; lia|].
    apply H. right. by vm_compute.
  - destruct (numeric_getters_normalize
                (Sample.with_only [("blockNumber", VNum (Int 12))]) 12)
      as [H _]; [unfold safe_integer; lia|].
    apply H. left. by vm_compute.
Defined.

(** ** A claim through serialization *)

Lemma compose_text sd ac ep bl :
  compose sd ac ep bl =
    compose (VStr (to_string sd)) (VStr (to_string ac))
            (VStr (to_string ep)) (VStr (to_string bl)).
Proof. reflexivity. Qed.

(** A signal built from a claim, serialized with [payload] and built
    again from that payload has the same consensus string, and each of
    its four fields is the text the first construction wrote for it: a
    string comes back as it was, a safe integer as its decimal digits, an
    absent field as the string ["undefined"].  This holds when the four
    values are strings, [undefined], [null], booleans, [NaN] or safe
    integers, none of the four texts contains [" > "] and the first three
    do not end with [" >"]. *)
Theorem claim_comes_back_as_text (p : Payload) (sp : obj) :
  let sd := to_string (get sp "sender") in
  let ac := to_string (get sp "action") in
  let ep := to_string (get sp "epoch") in
  let bl := to_string (get sp "block") in
  exact_text (get sp "sender") → exact_text (get sp "action") →
  exact_text (get sp "epoch") → exact_text (get sp "block") →
  contains_sep sd = false → contains_sep ac = false →
  contains_sep ep = false → contains_sep bl = false →
  ends_open sd = false → ends_open ac = false → ends_open ep = false →
  ∃ this this',
    constructor p (Some sp) = Ok this ∧
    constructor (payload this) None = Ok this' ∧
    consensus this' = consensus this ∧
    sender this' = VStr sd ∧ action this' = VStr ac ∧
    epoch this' = VStr ep ∧ block this' = VStr bl.
Proof.
  intros sd ac ep bl _ _ _ _ Hsd Hac Hep Hbl Esd Eac Eep.
  destruct (constructor_explicit_returns p sp)
    as (this & Hc & _ & _ & _ & _ & Hcons).
  exists this. eexists. split; [exact Hc|]. split.
  - unfold payload. apply constructor_parses; [exact Hcons|].
    unfold compose. intros H. apply String.eqb_eq in H.
    by rewrite append_sep_nonempty in H.
  - cbn [consensus sender action epoch block with_claim super_new
         _signed_].
    split; [reflexivity|].
    rewrite compose_text. fold sd ac ep bl.
    rewrite split_sep_compose by done. by repeat split.
Qed.

(** An epoch given as the number 3 and no sender at all. *)
Lemma claim_comes_back_as_text_witness :
  ∃ this this',
    constructor (mkPayload ∅ ∅)
      (Some (<["action" := VStr "vote"]> (<["epoch" := VNum (Int 3)]>
            {["block" := VStr "0xaa"]}))) = Ok this ∧
    constructor (payload this) None = Ok this' ∧
    sender this = VUndef ∧ sender this' = VStr "undefined" ∧
    epoch this = VNum (Int 3) ∧ epoch this' = VStr "3".
Proof.
  assert (safe_integer 3) as Hsafe by (unfold safe_integer; lia).
  destruct (claim_comes_back_as_text (mkPayload ∅ ∅)
              (<["action" := VStr "vote"]> (<["epoch" := VNum (Int 3)]>
               {["block" := VStr "0xaa"]})))
    as (this & this' & Hc & Hr & _ & Hs & _ & He & _);
    try exact I; try exact Hsafe; try by vm_compute.
  exists this, this'. split; [exact Hc|]. split; [exact Hr|].
  assert (constructor (mkPayload ∅ ∅)
            (Some (<["action" := VStr "vote"]> (<["epoch" := VNum (Int 3)]>
                  {["block" := VStr "0xaa"]}))) =
          Ok (mkSignal {["@" := VStr "undefined > vote > 3 > 0xaa"]} ∅
                VUndef (VStr "vote") (VNum (Int 3)) (VStr "0xaa"))) as Hv
    by by vm_compute.
  rewrite Hv in Hc. injection Hc as <-.
  by repeat split.
Defined.

(** ** Splitting loses nothing *)

Lemma join_sep_cons seg segs :
  segs ≠ [] → join_sep (seg :: segs) = seg ++ " > " ++ join_sep segs.
Proof. by destruct segs. Qed.

Lemma join_sep_push c segs :
  segs ≠ [] → join_sep (push_char c segs) = String c (join_sep segs).
Proof. destruct segs as [|seg [|seg' segs]]; done. Qed.

Lemma join_split_sep s : join_sep (split_sep s) = s.
Proof.
  assert (∀ n s, (String.length s ≤ n)%nat → join_sep (split_sep s) = s)
    as Hn; [|by apply (Hn (String.length s))].
  clear s. induction n as [|n IH]; intros s Hlen.
  - destruct s; [done|cbn in Hlen; lia].
  - destruct s as [|c0 [|c1 [|c2 s]]]; [done|done| |].
    + cbn in Hlen. change (split_sep (String c0 (String c1 "")))
        with (push_char c0 (split_sep (String c1 ""))).
      rewrite join_sep_push by apply split_sep_not_nil.
      rewrite IH by (cbn; lia). reflexivity.
    + cbn in Hlen. rewrite split_sep_step.
      destruct (is_sep c0 c1 c2) eqn:Hsep.
      * apply is_sep_true in Hsep as (-> & -> & ->).
        rewrite join_sep_cons by apply split_sep_not_nil.
        rewrite IH by lia. reflexivity.
      * rewrite join_sep_push by apply split_sep_not_nil.
        rewrite IH by (cbn; lia). reflexivity.
Qed.

(** Parsing then composing: when the consensus string of a payload has
    exactly four segments, the four fields the constructor reads compose
    to that very string. *)
Theorem parse_then_compose signed params c :
  get signed "@" = VStr c → length (split_sep c) = 4%nat →
  ∃ this,
    constructor (mkPayload signed params) None = Ok this ∧
    VStr (compose (sender this) (action this) (epoch this) (block this)) =
      consensus this.
Proof.
  intros Hc Hlen.
  assert (c ≠ "") as Hne by (by intros ->).
  eexists. split; [by apply constructor_parses|].
  change (VStr (compose (at_index (split_sep c) 0) (at_index (split_sep c) 1)
                        (at_index (split_sep c) 2) (at_index (split_sep c) 3))
          = get signed "@").
  rewrite Hc. f_equal.
  pose proof (join_split_sep c) as Hjoin.
  destruct (split_sep c) as [|sd [|ac [|ep [|bl [|? ?]]]]]; try done.
Qed.

Lemma parse_then_compose_witness :
  ∃ this,
    constructor (mkPayload {["@" := VStr "a > > b > c > d"]} ∅) None =
      Ok this ∧
    sender this = VStr "a" ∧ action this = VStr "> b" ∧
    VStr (compose (sender this) (action this) (epoch this) (block this)) =
      VStr "a > > b > c > d".
Proof.
  destruct (parse_then_compose {["@" := VStr "a > > b > c > d"]} ∅
              "a > > b > c > d" ltac:(by vm_compute) eq_refl)
    as (this & Hc & Hcomp).
  exists this. split; [exact Hc|].
  assert (constructor (mkPayload {["@" := VStr "a > > b > c > d"]} ∅) None =
          Ok (mkSignal {["@" := VStr "a > > b > c > d"]} ∅
                (VStr "a") (VStr "> b") (VStr "c") (VStr "d"))) as Hv
    by by vm_compute.
  rewrite Hv in Hc. injection Hc as <-. by repeat split.
Defined.

(** Two claims whose fields are free of the separator (and, for the
    first three, of a trailing [" >"]) and whose consensus strings are
    equal are the same claim: see [compose_injective]. *)
Lemma compose_injective_witness :
  ("alice", "vote", "3", "0xaa") = ("alice", "vote", "3", "0xaa").
Proof.
  apply (compose_injective "alice" "vote" "3" "0xaa"
           "alice" "vote" "3" "0xaa"); reflexivity.
Defined.

(** ** What a returned signal guarantees *)

(** When [verify] or [verifySync] returns, it returns the signal the
    inherited verification returned, the sender it was called with was
    defined, and the sender of the returned signal is strictly equal to
    its recovered alias. *)
Theorem verify_returns_only_matching
    (super_verify : option Earth → list DomainField → Signal → result Signal)
    (super_verifySync :
       option Earth → value → list DomainField → Signal → result Signal)
    (authorAlias : Signal → value)
    (earth : option Earth) (blockNumber : value) (this this' : Signal) :
  (verify super_verify authorAlias earth this = Ok this' →
   sender this ≠ VUndef ∧
   super_verify earth [mkDomainField "name" "string" (world this)] this =
     Ok this' ∧
   strict_eq (sender this') (authorAlias this') = true) ∧
  (verifySync super_verifySync authorAlias earth blockNumber this = Ok this' →
   sender this ≠ VUndef ∧
   super_verifySync earth blockNumber
     [mkDomainField "name" "string" (world this)] this = Ok this' ∧
   strict_eq (sender this') (authorAlias this') = true).
Proof.
  assert (∀ r, (if String.eqb (typeof (sender this)) "undefined"
                then Throw MissingSender
                else s ← r; check_sender authorAlias s) = Ok this' →
               sender this ≠ VUndef ∧ r = Ok this' ∧
               strict_eq (sender this') (authorAlias this') = true) as Hrun.
  { intros r.
    destruct (String.eqb (typeof (sender this)) "undefined") eqn:Hs; [done|].
    apply typeof_defined in Hs.
    destruct r as [s|e]; cbn [mbind result_bind]; [|done].
    unfold check_sender.
    destruct (strict_eq (sender s) (authorAlias s)) eqn:Heq; cbn [negb];
      [|done].
    intros [= ->]. done. }
  split; apply Hrun.
Qed.

Lemma verify_returns_only_matching_witness :
  let dave :=
    mkSignal ∅ {["alias" := VStr "dave"]}
      (VStr "dave") (VStr "vote") (VStr "3") (VStr "0xaa") in
  strict_eq (sender dave) (Sample.alias dave) = true.
Proof.
  intros dave.
  destruct (verify_returns_only_matching Sample.accept Sample.acceptSync
              Sample.alias None VUndef dave dave) as [H _].
  destruct (H eq_refl) as (_ & _ & Heq). exact Heq.
Defined.

(** An error of [locate] or [locateSync] is the missing-collaborator
    error, and then no Earth was given; or the missing-anchor error, and
    then an Earth was given and [block] is [undefined]; or the error the
    lookup itself threw, passed on as it is. *)
Theorem locate_errors (earth : option Earth) (confirm : value)
    (this : Signal) (e : error) :
  (locate earth this = Throw e →
   earth = None ∧ e = MissingCollaborator ∨
   (∃ api, earth = Some api ∧
      (block this = VUndef ∧ e = MissingAnchor ∨
       block this ≠ VUndef ∧ getBlock api (block this) = Throw e))) ∧
  (locateSync earth confirm this = Throw e →
   earth = None ∧ e = MissingCollaborator ∨
   (∃ api, earth = Some api ∧
      (block this = VUndef ∧ e = MissingAnchor ∨
       block this ≠ VUndef ∧ readHash api (block this) confirm = Throw e))).
Proof.
  split; unfold locate, locateSync;
    (destruct earth as [api|]; [|intros [= <-]; by left]);
    intros H; right; exists api; (split; [done|]);
    destruct (String.eqb (typeof (block this)) "undefined") eqn:Hb.
  - apply typeof_undefined in Hb. injection H as <-. by left.
  - apply typeof_defined in Hb. right. split; [done|].
    destruct (getBlock api (block this)) as [[info|]|e'];
      cbn [mbind result_bind] in H; congruence.
  - apply typeof_undefined in Hb. injection H as <-. by left.
  - apply typeof_defined in Hb. right. split; [done|].
    destruct (readHash api (block this) confirm) as [[info|]|e'];
      cbn [mbind result_bind] in H; congruence.
Qed.

Lemma locate_errors_witness :
  getBlock (mkEarth (λ _, Throw (Rejected "timeout")) (λ _ _, Ok None))
    (VStr "0xaa") = Throw (Rejected "timeout").
Proof.
  destruct (locate_errors
              (Some (mkEarth (λ _, Throw (Rejected "timeout"))
                             (λ _ _, Ok None)))
              VUndef
              (mkSignal ∅ ∅ (VStr "alice") (VStr "vote") (VStr "3")
                 (VStr "0xaa"))
              (Rejected "timeout")) as [H _].
  destruct (H eq_refl) as [[Hn _]|(api & [= <-] & [[Hb _]|[_ Hl]])].
  - discriminate Hn.
  - discriminate Hb.
  - exact Hl.
Defined.

(** [clearCustomParams] never removes a parameter: it throws the
    reference error for every signal that has at least one parameter,
    and returns the signal unchanged when it has none. *)
Theorem clearCustomParams_never_clears this :
  (_params_ this ≠ ∅ →
   clearCustomParams this = Throw (ReferenceError "standardParams")) ∧
  (_params_ this = ∅ → clearCustomParams this = Ok this) ∧
  (∀ this', clearCustomParams this = Ok this' → this' = this).
Proof.
  split; [apply clearCustomParams_throws|].
  split; [apply clearCustomParams_empty|].
  intros this' H.
  destruct (decide (_params_ this = ∅)) as [He|Hne].
  - rewrite clearCustomParams_empty in H by done. by injection H.
  - by rewrite clearCustomParams_throws in H.
Qed.

Lemma clearCustomParams_never_clears_witness :
  clearCustomParams (Sample.with_only [("note", VStr "x")]) =
    Throw (ReferenceError "standardParams").
Proof.
  destruct (clearCustomParams_never_clears
              (Sample.with_only [("note", VStr "x")])) as [H _].
  apply H. intros He.
  apply (f_equal (λ m : obj, m !! "note")) in He. by vm_compute in He.
Defined.
